(** * The schema editor of a connection: tree edits, cascade, enrichment, save

    A shallow embedding of
    [frontend/src/components/Connection/ConnectionEditor.tsx]: the
    [SchemaEditor] component (path-addressed field edits, the schema and table
    switches, the two on-demand enrichment fetches) and the [ConnectionEditor]
    component that owns the edited fields and the unsaved-changes flag.

    Conventions of the embedding.
    - A JavaScript object used as [Record<string, any>] is a finite map from
      property names to values; property names are ordinary data properties.
    - An array is a list; [a[i]] is a lookup that yields [undefined] (here
      [None]) outside the array.
    - Values are immutable here, so [structuredClone] is the identity on
      values and an in-place assignment through a reference into the clone is
      a functional update along the path that reached the reference.
    - A React state setter is a function on the component state.
    - An [async] function is a task that stops at its [await] with the state
      it has reached and a continuation for the settled promise. *)

From stdpp Require Import gmap strings list pretty.

#[local] Set Warnings "-register-all".

(** ** JavaScript values and completions *)

Module Js.

(** Plain data as the server sends it and [structuredClone] copies it.
    Numbers are the integer-valued ones; the schema tree holds none. *)
Inductive JsValue : Type :=
| JNull
| JBool (b : bool)
| JNum (n : Z)
| JStr (s : string)
| JArr (elems : list JsValue)
| JObj (props : gmap string JsValue).

(** [ToBoolean]: what [if (v)] and [v && ...] test. *)
Definition truthy (v : JsValue) : bool :=
  match v with
  | JNull => false
  | JBool b => b
  | JNum n => negb (n =? 0)%Z
  | JStr s => negb (String.eqb s "")
  | JArr _ | JObj _ => true
  end.

(** [Array.isArray]. *)
Definition isArray (v : JsValue) : bool :=
  match v with JArr _ => true | _ => false end.

(** [arr[i]] for an integer [i]: [undefined] below zero and past the end. *)
Definition at_index {A} (arr : list A) (i : Z) : option A :=
  if decide (0 ≤ i)%Z then arr !! Z.to_nat i else None.

Inductive Thrown : Type :=
| TypeError
| Rejection (reason : string).

(** How a piece of code ends. [Unmodelled] marks the two situations in which
    a stored value contradicts the declared type of the tree in a way whose
    JavaScript behaviour this development does not describe (see
    [assignMember]). *)
Inductive Completion (A : Type) : Type :=
| Normal (a : A)
| Throw (e : Thrown)
| Unmodelled.
Arguments Normal {A} a.
Arguments Throw {A} e.
Arguments Unmodelled {A}.

#[export] Instance Completion_ret : MRet Completion := @Normal.
#[export] Instance Completion_bind : MBind Completion := λ A B k c,
  match c with
  | Normal a => k a
  | Throw e => Throw e
  | Unmodelled => Unmodelled
  end.

(** [target[name] = value] in strict mode (the file is an ES module), where
    [target] is what an index expression produced. [undefined], [null] and
    the primitives raise a [TypeError]; a plain object takes the property.
    An array target would go through the array's own property machinery
    (index, [length], named property): not described here. *)
Definition assignMember (target : option JsValue) (name : string)
    (value : JsValue) : Completion JsValue :=
  match target with
  | None | Some JNull | Some (JBool _) | Some (JNum _) | Some (JStr _) =>
      Throw TypeError
  | Some (JObj props) => Normal (JObj (<[name := value]> props))
  | Some (JArr _) => Unmodelled
  end.

(** [holder[i][name] = value] for a truthy [holder] and [0 <= i]. An array
    holder yields its element, which is then updated in place; a primitive
    holder yields [undefined] or (a string) a one-character primitive, and
    the assignment raises either way. A holder that is a plain object would
    look up the property named by the decimal numeral of [i]: not described
    here, the declared type of [relationship] is an array. *)
Definition assignElementMember (holder : JsValue) (i : Z) (name : string)
    (value : JsValue) : Completion JsValue :=
  match holder with
  | JArr elems =>
      entry ← assignMember (at_index elems i) name value;
      mret (JArr (<[Z.to_nat i := entry]> elems))
  | JNull | JBool _ | JNum _ | JStr _ => Throw TypeError
  | JObj _ => Unmodelled
  end.

End Js.
Export Js.

(** ** The schema tree *)

(** A column and a relationship entry are written through
    [(column as any)[name]] and [Record<string, any>]: they are property
    maps. The declared properties of a column are [name], [description],
    [type], [enabled], [primary_key], [possible_values] and [relationship]
    (an array of relationship entries); those of an entry are [enabled],
    [schema_name], [table] and [column]. *)
Abbreviation Column := (gmap string JsValue).

(** Modelled from the spec: the type [IConnectionOptions] of
    [@components/Library/types], which the component imports. Section 3 of the
    specification gives a table a name, an enabled flag, a description and a
    sequence of columns, a schema a name, an enabled flag and a sequence of
    tables; the component reads [description] and [columns] as optional. *)
Record Table : Type := {
  table_name : string;
  table_enabled : bool;
  table_description : option string;
  table_columns : option (list Column);
}.

Record Schema : Type := {
  schema_name : string;
  schema_enabled : bool;
  schema_tables : list Table;
}.

Record IConnectionOptions : Type := {
  schemas : list Schema;
}.

(** The argument object of [columnFieldChangeHandler]; [relation_index] is
    optional and defaults to [-1]. *)
Record FieldChange : Type := {
  fc_value : JsValue;
  fc_name : string;
  fc_column_index : Z;
  fc_table_index : Z;
  fc_schema_index : Z;
  fc_relation_index : option Z;
}.

Definition structuredClone (options : IConnectionOptions) : IConnectionOptions :=
  options.

(** [newOptions?.schemas?.[schema_index]?.tables?.[table_index]?.columns?.[column_index]] *)
Definition column_at (options : IConnectionOptions)
    (schema_index table_index column_index : Z) : option Column :=
  schema ← at_index (schemas options) schema_index;
  table ← at_index (schema_tables schema) table_index;
  columns ← table_columns table;
  at_index columns column_index.

(** The tree after an assignment through the reference that [column_at]
    returned: the same tree with [column] in that position. *)
Definition with_column (options : IConnectionOptions)
    (schema_index table_index column_index : Z) (column : Column)
    : IConnectionOptions :=
  {| schemas :=
       alter (λ schema,
         {| schema_name := schema_name schema;
            schema_enabled := schema_enabled schema;
            schema_tables :=
              alter (λ table,
                {| table_name := table_name table;
                   table_enabled := table_enabled table;
                   table_description := table_description table;
                   table_columns :=
                     alter (λ _, column) (Z.to_nat column_index)
                       <$> table_columns table |})
                (Z.to_nat table_index) (schema_tables schema) |})
         (Z.to_nat schema_index) (schemas options) |}.

(** Lines 46 to 56 of [columnFieldChangeHandler]: the tree that the handler
    hands to [setOptions], or the exception that stops it before. *)
Definition setColumnField (options : IConnectionOptions) (a : FieldChange)
    : Completion IConnectionOptions :=
  let relation_index := default (-1)%Z (fc_relation_index a) in
  let newOptions := structuredClone options in
  match column_at newOptions (fc_schema_index a) (fc_table_index a)
          (fc_column_index a) with
  | Some column =>
      if decide (0 ≤ relation_index)%Z then
        match column !! "relationship" with
        | Some relationship =>
            if truthy relationship then
              relationship' ←
                assignElementMember relationship relation_index
                  (fc_name a) (fc_value a);
              mret (with_column newOptions (fc_schema_index a)
                      (fc_table_index a) (fc_column_index a)
                      (<["relationship" := relationship']> column))
            else mret newOptions
        | None => mret newOptions
        end
      else
        mret (with_column newOptions (fc_schema_index a) (fc_table_index a)
                (fc_column_index a) (<[fc_name a := fc_value a]> column))
  | None => mret newOptions
  end.

(** ** The [SchemaEditor] component *)

(** The component's own state: one loading map per enrichment kind, keyed by
    the string [`${schema_index}-${table_index}-${column_index}`]. *)
Record SchemaEditorState : Type := {
  loadingPossibleValuesMap : gmap string bool;
  loadingRelationshipsMap : gmap string bool;
}.

Definition setLoadingPossibleValuesMap
    (update : gmap string bool → gmap string bool) (ui : SchemaEditorState)
    : SchemaEditorState :=
  {| loadingPossibleValuesMap := update (loadingPossibleValuesMap ui);
     loadingRelationshipsMap := loadingRelationshipsMap ui |}.

Definition setLoadingRelationshipsMap
    (update : gmap string bool → gmap string bool) (ui : SchemaEditorState)
    : SchemaEditorState :=
  {| loadingPossibleValuesMap := loadingPossibleValuesMap ui;
     loadingRelationshipsMap := update (loadingRelationshipsMap ui) |}.

Definition loading_key (schema_index table_index column_index : Z) : string :=
  pretty schema_index +:+ "-" +:+ pretty table_index +:+ "-"
    +:+ pretty column_index.

(** The two calls of [api] and what their promise settles to: a result whose
    [data] may be missing, or a rejection. *)
Inductive ApiCall : Type :=
| getPossibleValues (connectionId schema_name table_name column_name : string)
| getRelationships
    (connectionId schema_name table_name column_name column_type : string).

Record ApiResult : Type := {
  data : option JsValue;
}.

Inductive Settled : Type :=
| Fulfilled (result : option ApiResult)
| Rejected (reason : string).

(** [result?.data && Array.isArray(result?.data)]; when it holds the handler
    is given [result.data]. *)
Definition array_data (result : option ApiResult) : option JsValue :=
  match result ≫= data with
  | Some d => if truthy d && isArray d then Some d else None
  | None => None
  end.

(** An [async] function with one [await]: either it has finished, or it waits
    for an [api] call in the state [w]; [resume] is run with the settled
    promise and the state of that later moment. *)
Inductive Task (W : Type) : Type :=
| Finished (w : W) (c : Completion unit)
| Awaiting (w : W) (call : ApiCall) (resume : Settled → W → Task W).
Arguments Finished {W} w c.
Arguments Awaiting {W} w call resume.

Section SchemaEditor.

(** The props: [options] is the tree of the render whose closures run,
    [setOptions] the parent's callback, acting on the parent's state. *)
Context {State : Type}.
Variable connectionId : string.
Variable options : IConnectionOptions.
Variable setOptions : IConnectionOptions → State → State.

Definition columnFieldChangeHandler (a : FieldChange)
    : State → State * Completion unit := λ st,
  match setColumnField options a with
  | Normal newOptions => (setOptions newOptions st, Normal ())
  | Throw e => (st, Throw e)
  | Unmodelled => (st, Unmodelled)
  end.

(** [onChange] of the schema switch: "Check/Uncheck schema and its tables". *)
Definition schemaSwitch_onChange (schema_index : nat) (checked : bool)
    : State → State :=
  setOptions
    {| schemas :=
         imap (λ prev_idx prev_schema,
           if decide (prev_idx = schema_index) then
             {| schema_name := schema_name prev_schema;
                schema_enabled := checked;
                schema_tables :=
                  (λ table,
                    {| table_name := table_name table;
                       table_enabled := checked;
                       table_description := table_description table;
                       table_columns := table_columns table |})
                    <$> schema_tables prev_schema |}
           else prev_schema)
           (schemas options) |}.

(** [onChange] of a table switch: "Check/Uncheck table". *)
Definition tableSwitch_onChange (schema_index table_index : nat)
    (checked : bool) : State → State :=
  setOptions
    {| schemas :=
         imap (λ prev_idx prev_schema,
           if decide (prev_idx = schema_index) then
             {| schema_name := schema_name prev_schema;
                schema_enabled := schema_enabled prev_schema;
                schema_tables :=
                  imap (λ inner_table_idx table,
                    if decide (inner_table_idx = table_index) then
                      {| table_name := table_name table;
                         table_enabled := checked;
                         table_description := table_description table;
                         table_columns := table_columns table |}
                    else table)
                    (schema_tables prev_schema) |}
           else prev_schema)
           (schemas options) |}.

Definition updatePossibleValues
    (schema_name table_name column_name : string)
    (column_index table_index schema_index : Z)
    : SchemaEditorState * State → Task (SchemaEditorState * State) := λ w,
  let key := loading_key schema_index table_index column_index in
  let w := (setLoadingPossibleValuesMap (λ prev, <[key := true]> prev) w.1,
            w.2) in
  Awaiting w
    (getPossibleValues connectionId schema_name table_name column_name)
    (λ settled w,
      let '(st, c) :=
        (* try *)
        match settled with
        | Fulfilled result =>
            match array_data result with
            | Some d =>
                columnFieldChangeHandler
                  {| fc_value := d; fc_name := "possible_values";
                     fc_column_index := column_index;
                     fc_table_index := table_index;
                     fc_schema_index := schema_index;
                     fc_relation_index := None |} w.2
            | None => (w.2, Normal ())
            end
        | Rejected reason => (w.2, Throw (Rejection reason))
        end in
      (* finally *)
      Finished
        (setLoadingPossibleValuesMap (λ prev, <[key := false]> prev) w.1, st)
        c).

Definition updateRelationships
    (schema_name table_name column_name column_type : string)
    (column_index table_index schema_index : Z)
    : SchemaEditorState * State → Task (SchemaEditorState * State) := λ w,
  let key := loading_key schema_index table_index column_index in
  let w := (setLoadingRelationshipsMap (λ prev, <[key := true]> prev) w.1,
            w.2) in
  Awaiting w
    (getRelationships connectionId schema_name table_name column_name
       column_type)
    (λ settled w,
      let '(st, c) :=
        (* try *)
        match settled with
        | Fulfilled result =>
            match array_data result with
            | Some d =>
                columnFieldChangeHandler
                  {| fc_value := d; fc_name := "relationship";
                     fc_column_index := column_index;
                     fc_table_index := table_index;
                     fc_schema_index := schema_index;
                     fc_relation_index := None |} w.2
            | None => (w.2, Normal ())
            end
        | Rejected reason => (w.2, Throw (Rejection reason))
        end in
      (* finally *)
      Finished
        (setLoadingRelationshipsMap (λ prev, <[key := false]> prev) w.1, st)
        c).

(** What the render shows for the switches: nothing for a schema without
    tables, else the schema switch ([checked={schema.enabled}]) and one
    switch per table ([checked={table.enabled && schema.enabled}]). *)
Definition tableSwitch_checked (schema : Schema) (table : Table) : bool :=
  table_enabled table && schema_enabled schema.

Definition render_switches : list (option (bool * list bool)) :=
  (λ schema,
    if decide (length (schema_tables schema) = 0) then None
    else Some (schema_enabled schema,
               tableSwitch_checked schema <$> schema_tables schema))
    <$> schemas options.

End SchemaEditor.

(** The operations of the specification, as the tree that the corresponding
    handler hands to [setOptions]. *)
Definition setSchemaEnabled (tree : IConnectionOptions) (schema_index : nat)
    (enabled : bool) : IConnectionOptions :=
  schemaSwitch_onChange tree (λ newOptions _, newOptions) schema_index enabled
    tree.

Definition setTableEnabled (tree : IConnectionOptions)
    (schema_index table_index : nat) (enabled : bool) : IConnectionOptions :=
  tableSwitch_onChange tree (λ newOptions _, newOptions) schema_index
    table_index enabled tree.

(** ** The [ConnectionEditor] component *)

(** Modelled from the spec: [IEditConnection] of [@components/Library/types]
    (the form state; [options] is absent until a connection is loaded) and the
    connection record of [useGetConnection], with the name, the connection
    string and the schema options of section 3. *)
Record IEditConnection : Type := {
  edit_name : string;
  edit_dsn : string;
  edit_options : option IConnectionOptions;
}.

Record IConnection : Type := {
  connection_name : string;
  connection_dsn : string;
  connection_options : option IConnectionOptions;
}.

Record EditorState : Type := {
  editFields : IEditConnection;
  unsavedChanges : bool;
}.

(** The payload object of [updateConnection]: [dsn] is a key that may be
    missing; [options] is always a key, with the value of the form state. *)
Record UpdatePayload : Type := {
  payload_name : string;
  payload_dsn : option string;
  payload_options : option IConnectionOptions;
}.

(** Calls that leave the component. *)
Inductive Effect : Type :=
| navigate (to : string)
| updateConnection (id : string) (payload : UpdatePayload).

Inductive SaveResult : Type :=
| SaveSucceeded
| SaveFailed (error : string).

(** [x || y] on strings: the empty string is falsy. *)
Definition string_or (x : option string) (y : string) : string :=
  match x with
  | Some s => if String.eqb s "" then y else s
  | None => y
  end.

Section ConnectionEditor.

(** The route parameter and the data of [useGetConnection] ([undefined]
    while it loads). *)
Variable connectionId : string.
Variable connection : option IConnection.

(** [useState<IEditConnection>({ name: "", dsn: "" })], [useState(false)] *)
Definition initialState : EditorState :=
  {| editFields := {| edit_name := ""; edit_dsn := ""; edit_options := None |};
     unsavedChanges := false |}.

(** The effect that runs when [connection] changes. *)
Definition onConnection : EditorState → EditorState := λ st,
  let prev := editFields st in
  {| editFields :=
       {| edit_name := string_or (connection_name <$> connection) (edit_name prev);
          edit_dsn := string_or (connection_dsn <$> connection) (edit_dsn prev);
          edit_options :=
            match connection ≫= connection_options with
            | Some o => Some o
            | None => edit_options prev
            end |};
     unsavedChanges := unsavedChanges st |}.

(** [onChange] of the name input and of the connection-string input. *)
Definition nameInput_onChange (value : string) : EditorState → EditorState :=
  λ st,
  {| editFields :=
       {| edit_name := value;
          edit_dsn := edit_dsn (editFields st);
          edit_options := edit_options (editFields st) |};
     unsavedChanges := true |}.

Definition dsnInput_onChange (value : string) : EditorState → EditorState :=
  λ st,
  {| editFields :=
       {| edit_name := edit_name (editFields st);
          edit_dsn := value;
          edit_options := edit_options (editFields st) |};
     unsavedChanges := true |}.

(** The [setOptions] prop given to [SchemaEditor]. *)
Definition setOptions (newOptions : IConnectionOptions)
    : EditorState → EditorState := λ st,
  let prev := editFields st in
  {| editFields :=
       {| edit_name := edit_name prev;
          edit_dsn := edit_dsn prev;
          edit_options := Some newOptions |};
     unsavedChanges := true |}.

Definition handleSubmit : EditorState → EditorState * list Effect := λ st,
  if negb (unsavedChanges st) then
    (st, [navigate "/"]) (* Return to previous page *)
  else if String.eqb connectionId "" then (st, [])
  else
    (st,
     [updateConnection connectionId
        {| payload_name := edit_name (editFields st);
           payload_dsn :=
             if decide (Some (edit_dsn (editFields st))
                          ≠ connection_dsn <$> connection)
             then Some (edit_dsn (editFields st)) else None;
           payload_options := edit_options (editFields st) |}]).

(** Modelled from the spec: the hook [useUpdateConnection] of [@/hooks],
    which the component configures with [onSuccess() { navigate({ to: "/" }) }].
    The save collaborator answers with the persisted connection or an error;
    the hook runs [onSuccess] in the first case and no code of the component
    in the second. *)
Definition updateConnection_settled (r : SaveResult)
    : EditorState → EditorState * list Effect := λ st,
  match r with
  | SaveSucceeded => (st, [navigate "/"])
  | SaveFailed _ => (st, [])
  end.

(** The save button, followed by the answer of the save collaborator when a
    save was requested. *)
Definition commit (r : SaveResult)
    : EditorState → EditorState * list Effect := λ st,
  let '(st, effects) := handleSubmit st in
  match effects with
  | [updateConnection _ _] =>
      let '(st, effects') := updateConnection_settled r st in
      (st, effects ++ effects')
  | _ => (st, effects)
  end.

(** What the user reaches through the rendered [SchemaEditor], which exists
    only while [editFields.options] is set and then has it as its [options]. *)
Definition applyFieldChange (a : FieldChange)
    : EditorState → EditorState * Completion unit := λ st,
  match edit_options (editFields st) with
  | Some options => columnFieldChangeHandler options setOptions a st
  | None => (st, Normal ())
  end.

End ConnectionEditor.

(** ** Observations on trees *)

(** The tree with its columns erased: every schema's and table's own fields
    and the number of columns of each table. *)
Definition table_outline (t : Table)
    : string * bool * option string * option nat :=
  (table_name t, table_enabled t, table_description t,
   length <$> table_columns t).

Definition schema_outline (s : Schema)
    : string * bool * list (string * bool * option string * option nat) :=
  (schema_name s, schema_enabled s, table_outline <$> schema_tables s).

Definition outline (tree : IConnectionOptions) :=
  schema_outline <$> schemas tree.

(** The entries of a column's relationship sequence, and the entry object at
    an index of it. *)
Definition relationship_entries (c : Column) : list JsValue :=
  match c !! "relationship" with
  | Some (JArr entries) => entries
  | _ => []
  end.

Definition relation_at (c : Column) (relation_index : Z)
    : option (gmap string JsValue) :=
  match at_index (relationship_entries c) relation_index with
  | Some (JObj entry) => Some entry
  | _ => None
  end.

(** A path is valid when its column resolves and, if it carries a
    non-negative relation index, that index addresses an entry object. *)
Definition valid_path (tree : IConnectionOptions) (a : FieldChange) : bool :=
  match column_at tree (fc_schema_index a) (fc_table_index a)
          (fc_column_index a) with
  | Some c =>
      let r := default (-1)%Z (fc_relation_index a) in
      if decide (0 ≤ r)%Z then
        if relation_at c r is Some _ then true else false
      else true
  | None => false
  end.



(** ** A sample connection *)

Module Sample.

Definition orders_user_id : JsValue :=
  JObj {[ "enabled" := JBool true; "schema_name" := JStr "public";
          "table" := JStr "orders"; "column" := JStr "user_id" ]}.

(** A column that was never enriched and one that was. *)
Definition status : Column :=
  {[ "name" := JStr "status"; "type" := JStr "text";
     "enabled" := JBool true; "primary_key" := JBool false;
     "possible_values" := JArr []; "relationship" := JArr [] ]}.

Definition id : Column :=
  {[ "name" := JStr "id"; "type" := JStr "integer";
     "enabled" := JBool true; "primary_key" := JBool true;
     "possible_values" := JArr []; "relationship" := JArr [orders_user_id] ]}.

Definition users : Table :=
  {| table_name := "users"; table_enabled := true;
     table_description := Some "accounts";
     table_columns := Some [id; status] |}.

Definition sessions : Table :=
  {| table_name := "sessions"; table_enabled := false;
     table_description := None; table_columns := Some [] |}.

Definition tree : IConnectionOptions :=
  {| schemas :=
       [ {| schema_name := "public"; schema_enabled := false;
            schema_tables := [users; sessions] |};
         {| schema_name := "audit"; schema_enabled := true;
            schema_tables := [] |} ] |}.

Definition loaded : IConnection :=
  {| connection_name := "warehouse";
     connection_dsn := "postgres://db/warehouse";
     connection_options := Some tree |}.

(** The editor right after the connection arrived. *)
Definition clean : EditorState := onConnection (Some loaded) initialState.

(** The editor after the user retyped the name. *)
Definition renamed : EditorState := nameInput_onChange "lake" clean.

(** An edit of the only relationship entry of [users.id]. *)
Definition disable_relation : FieldChange :=
  {| fc_value := JBool false; fc_name := "enabled";
     fc_column_index := 0; fc_table_index := 0; fc_schema_index := 0;
     fc_relation_index := Some 0%Z |}.

(** The same edit aimed at [users.status], whose sequence is empty. *)
Definition stale_relation : FieldChange :=
  {| fc_value := JBool false; fc_name := "enabled";
     fc_column_index := 1; fc_table_index := 0; fc_schema_index := 0;
     fc_relation_index := Some 0%Z |}.

(** An edit of a column that the table does not have. *)
Definition stale_column : FieldChange :=
  {| fc_value := JStr "note"; fc_name := "description";
     fc_column_index := 7; fc_table_index := 0; fc_schema_index := 0;
     fc_relation_index := None |}.

End Sample.

(** ** The rest of the [SchemaEditor] component *)

(** [newOptions?.schemas?.[schema_index]?.tables?.[table_index]] *)
Definition table_at (options : IConnectionOptions)
    (schema_index table_index : Z) : option Table :=
  schema ← at_index (schemas options) schema_index;
  at_index (schema_tables schema) table_index.

(** The tree after an assignment through the reference that [table_at]
    returned. *)
Definition with_table (options : IConnectionOptions)
    (schema_index table_index : Z) (table : Table) : IConnectionOptions :=
  {| schemas :=
       alter (λ schema,
         {| schema_name := schema_name schema;
            schema_enabled := schema_enabled schema;
            schema_tables :=
              alter (λ _, table) (Z.to_nat table_index)
                (schema_tables schema) |})
         (Z.to_nat schema_index) (schemas options) |}.

(** Lines 63 to 67 of [tableDescriptionFieldChangeHandler]: the tree that the
    handler hands to [setOptions]. Its only caller passes the text of the
    description input as [value]. *)
Definition setTableDescription (options : IConnectionOptions) (value : string)
    (table_index schema_index : Z) : IConnectionOptions :=
  let newOptions := structuredClone options in
  match table_at newOptions schema_index table_index with
  | Some table =>
      with_table newOptions schema_index table_index
        {| table_name := table_name table;
           table_enabled := table_enabled table;
           table_description := Some value;
           table_columns := table_columns table |}
  | None => newOptions
  end.




Definition table_key (schema : Schema) (table : Table) : string :=
  schema_name schema +:+ "_" +:+ table_name table.

Section SchemaEditorRest.

Context {State : Type}.
Variable options : IConnectionOptions.
Variable setOptions : IConnectionOptions → State → State.

Definition tableDescriptionFieldChangeHandler (value : string)
    (table_index schema_index : Z) : State → State :=
  setOptions (setTableDescription options value table_index schema_index).

End SchemaEditorRest.

(** ** The rest of the [ConnectionEditor] component *)

(** The component's state with its two dialogs. *)
Record EditorView : Type := {
  session : EditorState;
  showCancelAlert : bool;
  showDeleteAlert : bool;
}.

(** The payload of the two generate requests: unlike the payload of a save it
    always has the [dsn] key. *)
Record FullPayload : Type := {
  full_name : string;
  full_dsn : string;
  full_options : option IConnectionOptions;
}.

(** Calls that leave the component, beyond those of [Effect]. *)
Inductive Outcall : Type :=
| effect (e : Effect)
| history_back
| deleteConnection (id : string)
| generateDescriptions (id : string) (payload : FullPayload)
| generateRelationships (id : string) (payload : FullPayload)
| refreshSchema (id : string).

Section ConnectionEditorRest.

(** The route parameter, and the data of [useGetConversations] ([undefined]
    while it loads). Of a conversation the component reads [connection_id]
    only; the type of conversations is left open. *)
Context {Conversation : Type}.
Variable connection_id : Conversation → string.
Variable connectionId : string.
Variable conversationsData : option (list Conversation).

Definition relatedConversations : list Conversation :=
  match conversationsData with
  | Some conversations =>
      filter (λ conversation, connection_id conversation = connectionId)
        conversations
  | None => []
  end.

(** The success callback given to [useRefreshConnectionSchema]. *)
Definition refreshSchema_onSuccess (data : IConnection)
    : EditorState → EditorState := λ st,
  let prev := editFields st in
  {| editFields :=
       {| edit_name := edit_name prev;
          edit_dsn := edit_dsn prev;
          edit_options := connection_options data |};
     unsavedChanges := unsavedChanges st |}.

(** "Handle navigating back only if there are no unsaved changes" *)
Definition handleBack : EditorView → EditorView * list Outcall := λ view,
  if unsavedChanges (session view) then
    ({| session := session view; showCancelAlert := true;
        showDeleteAlert := showDeleteAlert view |}, [])
  else (view, [effect (navigate "/")]).

(** "Handle navigating back when escape is pressed" *)
Definition handleKeyPress (key : string)
    : EditorView → EditorView * list Outcall := λ view,
  if String.eqb key "Escape" then handleBack view else (view, []).

(** The two buttons of the "Discard Unsaved Changes?" dialog. *)
Definition cancelAlert_onSuccess : EditorView → EditorView * list Outcall :=
  λ view,
  ({| session := session view; showCancelAlert := false;
      showDeleteAlert := showDeleteAlert view |}, [history_back]).

Definition cancelAlert_onCancel : EditorView → EditorView * list Outcall :=
  λ view,
  ({| session := session view; showCancelAlert := false;
      showDeleteAlert := showDeleteAlert view |}, []).

Definition handleDelete : EditorView → EditorView * list Outcall := λ view,
  if String.eqb connectionId "" then (view, [])
  else (view, [deleteConnection connectionId]).

(** [onClick] of "Delete this connection". *)
Definition deleteButton_onClick : EditorView → EditorView * list Outcall :=
  λ view,
  if decide (0 < length relatedConversations) then
    ({| session := session view; showCancelAlert := showCancelAlert view;
        showDeleteAlert := true |}, [])
  else handleDelete view.

(** The two buttons of the "Delete Connection?" dialog, and its message. *)
Definition deleteAlert_onSuccess : EditorView → EditorView * list Outcall :=
  λ view,
  handleDelete
    {| session := session view; showCancelAlert := showCancelAlert view;
       showDeleteAlert := false |}.

Definition deleteAlert_onCancel : EditorView → EditorView * list Outcall :=
  λ view,
  ({| session := session view; showCancelAlert := showCancelAlert view;
      showDeleteAlert := false |}, []).

Definition deleteAlert_message : string :=
  "This will delete " +:+ pretty (length relatedConversations)
    +:+ " related conversation(s)!".

Definition handleGenerateDescriptions
    : EditorState → EditorState * list Outcall := λ st,
  if String.eqb connectionId "" then (st, [])
  else
    (st,
     [generateDescriptions connectionId
        {| full_name := edit_name (editFields st);
           full_dsn := edit_dsn (editFields st);
           full_options := edit_options (editFields st) |}]).

Definition handleGenerateRelationships
    : EditorState → EditorState * list Outcall := λ st,
  if String.eqb connectionId "" then (st, [])
  else
    (st,
     [generateRelationships connectionId
        {| full_name := edit_name (editFields st);
           full_dsn := edit_dsn (editFields st);
           full_options := edit_options (editFields st) |}]).

End ConnectionEditorRest.

(** ** The user list of the admin settings *)

(** [frontend/src/components/admin/AdminSettings.tsx], component [UserList]
    and the save button of [AdminSettings]. The types [IUserInfo] and
    [IConnection] are imported from [@components/Library/types]; here a user
    is what the component reads and copies: its [config], an object with an
    optional [connections] array of connection ids and other properties that
    the spreads carry along, and the user's other properties. A connection is
    left open but for its [id] and [name]. *)
Module Admin.

Record UserConfig : Type := {
  connections : option (list string);
  config_rest : gmap string JsValue;
}.

Record IUserInfo : Type := {
  user_config : option UserConfig;
  user_rest : gmap string JsValue;
}.

(** [Partial<IUserInfo>]: the keys that an update carries. *)
Record UserUpdate : Type := {
  update_config : option UserConfig;
  update_rest : gmap string JsValue;
}.

(** The state of [AdminSettings] that [UserList] reads and sets. *)
Record AdminState : Type := {
  users : list IUserInfo;
  unsavedChanges : bool;
}.

(** [{ ...user, ...updates }], where [user] may be [undefined]. *)
Definition merged (user : option IUserInfo) (updates : UserUpdate)
    : IUserInfo :=
  {| user_config :=
       match update_config updates with
       | Some config => Some config
       | None => user ≫= user_config
       end;
     user_rest := update_rest updates ∪ from_option user_rest ∅ user |}.

(** [user.config?.connections || []] *)
Definition existingConnections (user : IUserInfo) : list string :=
  default [] (user_config user ≫= connections).

(** [{ ...user.config, connections: ids }] *)
Definition config_with (user : IUserInfo) (ids : list string) : UserConfig :=
  {| connections := Some ids;
     config_rest := from_option config_rest ∅ (user_config user) |}.

(** The copy of the array with the merged user at [index]. An index equal to
    the length appends; a larger one would leave holes in the array, which
    lists do not have. *)
Definition updateUser (index : nat) (updates : UserUpdate)
    : AdminState → Completion AdminState := λ st,
  let updatedUsers := users st in
  if decide (index < length updatedUsers) then
    mret {| users :=
              <[index := merged (updatedUsers !! index) updates]> updatedUsers;
            unsavedChanges := true |}
  else if decide (index = length updatedUsers) then
    mret {| users := updatedUsers ++ [merged None updates];
            unsavedChanges := true |}
  else Unmodelled.

Definition addConnectionToUser (userIndex : nat) (connectionId : string)
    : AdminState → Completion AdminState := λ st,
  match users st !! userIndex with
  | None => Throw TypeError
  | Some user =>
      let existingConnections := existingConnections user in
      if decide (connectionId ∈ existingConnections) then mret st
      else
        updateUser userIndex
          {| update_config :=
               Some (config_with user (existingConnections ++ [connectionId]));
             update_rest := ∅ |} st
  end.

Definition removeConnectionFromUser (userIndex : nat) (connectionId : string)
    : AdminState → Completion AdminState := λ st,
  match users st !! userIndex with
  | None => Throw TypeError
  | Some user =>
      let existingConnections := existingConnections user in
      updateUser userIndex
        {| update_config :=
             Some (config_with user
                     (filter (λ id, id ≠ connectionId) existingConnections));
           update_rest := ∅ |} st
  end.

Section connections.

Context {Connection : Type}.
Variable connection_id : Connection → string.
Variable connection_name : Connection → string.
Variable all_connections : list Connection.

Definition getConnectionName (connectionId : string) : string :=
  match list_find (λ c, connection_id c = connectionId) all_connections with
  | Some (_, connection) => connection_name connection
  | None => connectionId
  end.

Definition getAvailableConnections (userIndex : nat)
    : AdminState → Completion (list Connection) := λ st,
  match users st !! userIndex with
  | None => Throw TypeError
  | Some user =>
      let userConnections := existingConnections user in
      mret (filter (λ c, connection_id c ∉ userConnections) all_connections)
  end.

End connections.

(** [handleSaveChanges]: the request carries the users of the render in which
    the button was pressed; when it settles, success clears the flag and a
    failure is logged. *)
Inductive BulkUpdate : Type :=
| bulkUpdateUsers (sent : list IUserInfo).

Definition handleSaveChanges
    : AdminState
      → AdminState * BulkUpdate * (bool → AdminState → AdminState) := λ st,
  (st, bulkUpdateUsers (users st),
   λ (succeeded : bool) st,
     if succeeded then {| users := users st; unsavedChanges := false |}
     else st).

End Admin.

(** Two users and three connections. *)
Module AdminSample.

Definition ada : Admin.IUserInfo :=
  {| Admin.user_config :=
       Some {| Admin.connections := Some ["c1"];
               Admin.config_rest := {[ "theme" := JStr "dark" ]} |};
     Admin.user_rest := {[ "name" := JStr "Ada"; "role" := JStr "ADMIN" ]} |}.

Definition bob : Admin.IUserInfo :=
  {| Admin.user_config := None;
     Admin.user_rest := {[ "name" := JStr "Bob"; "role" := JStr "USER" ]} |}.

Definition state : Admin.AdminState :=
  {| Admin.users := [ada; bob]; Admin.unsavedChanges := false |}.

(** A connection as its id and its name. *)
Definition known : list (string * string) :=
  [("c1", "warehouse"); ("c2", "billing"); ("c3", "logs")].

End AdminSample.

(** ** The suggestion list of the message input *)

(** [frontend/src/components/Conversation/ExpandingInput.tsx], function
    [insertSuggestionAtCaret]. A JavaScript string is a sequence of UTF-16
    code units and its indices count code units; the type of code units is
    left open, with the test that [\w] makes on one and the space. *)
Section ExpandingInput.

Context {Char : Type}.
Variable is_word : Char → bool.
Variable space : Char.

(** The longest run of word characters at the head of a text. *)
Fixpoint word_run (text : list Char) : list Char :=
  match text with
  | c :: text => if is_word c then c :: word_run text else []
  | [] => []
  end.

(** [text.match(/(\w{3,})$/)], as its group [match[1]]: the longest run of
    word characters that ends the text, if it has three or more. *)
Definition trailing_word (text : list Char) : option (list Char) :=
  let word := reverse (word_run (reverse text)) in
  if decide (3 ≤ length word) then Some word else None.

(** [textarea] is the element behind [ref] with its [selectionStart] and
    [selectionEnd], or nothing. The handler sets [inputValue], hides the
    suggestions and schedules the caret position that it returns here. *)
Definition insertSuggestionAtCaret (textarea : option (nat * nat))
    (suggestion : list Char) (inputValue : list Char)
    : option (list Char * bool * nat) :=
  match textarea with
  | None => None
  | Some (start, end_) =>
      let textBefore := take start inputValue in
      let textAfter := drop end_ inputValue in
      let replaceStart :=
        match trailing_word textBefore with
        | Some word => start - length word
        | None => start
        end in
      let newValue :=
        take replaceStart inputValue ++ suggestion ++ [space] ++ textAfter in
      let newPos := replaceStart + length suggestion + 1 in
      Some (newValue, false, newPos)
  end.

End ExpandingInput.

(** ** Sample edits *)

Module Edits.

(** A write of the description of [users.id]. *)
Definition describe_id (text : string) : FieldChange :=
  {| fc_value := JStr text; fc_name := "description";
     fc_column_index := 0; fc_table_index := 0; fc_schema_index := 0;
     fc_relation_index := None |}.

(** A write of the enabled flag of [users.status]. *)
Definition disable_status : FieldChange :=
  {| fc_value := JBool false; fc_name := "enabled";
     fc_column_index := 1; fc_table_index := 0; fc_schema_index := 0;
     fc_relation_index := None |}.

End Edits.

(** The outline without the enabled flags: names, descriptions and numbers
    of columns. *)
Definition table_label (t : Table) : string * option string * option nat :=
  (table_name t, table_description t, length <$> table_columns t).

Definition schema_label (s : Schema)
    : string * list (string * option string * option nat) :=
  (schema_name s, table_label <$> schema_tables s).

Definition labels (tree : IConnectionOptions) :=
  schema_label <$> schemas tree.

(** [classNames]: the non-empty arguments joined by single spaces. *)
Definition classNames (classes : list string) : string :=
  String.concat " " (filter (λ class, class ≠ "") classes).

(** Decimal digits, for the keys of the loading maps. *)
Definition is_digit (c : Ascii.ascii) : bool :=
  bool_decide (48 ≤ Ascii.nat_of_ascii c ≤ 57).

Fixpoint all_digits (s : string) : bool :=
  match s with
  | EmptyString => true
  | String c s => is_digit c && all_digits s
  end.

(** ** Arrays and paths *)

Section at_index.
Context {A : Type}.
Implicit Types (arr : list A) (i j : Z).

Lemma at_index_Some arr i x :
  at_index arr i = Some x ↔ (0 ≤ i)%Z ∧ arr !! Z.to_nat i = Some x.
Proof.
  unfold at_index. case_decide; split; intros; tauto || done.
Qed.

Lemma at_index_negative arr i : (i < 0)%Z → at_index arr i = None.
Proof. intros. unfold at_index. case_decide; [lia | done]. Qed.

Lemma at_index_past_end arr i :
  (Z.of_nat (length arr) ≤ i)%Z → at_index arr i = None.
Proof.
  intros. unfold at_index. case_decide; [|done].
  apply lookup_ge_None. lia.
Qed.

Lemma at_index_alter_eq (f : A → A) arr i :
  (0 ≤ i)%Z → at_index (alter f (Z.to_nat i) arr) i = f <$> at_index arr i.
Proof.
  intros. unfold at_index. case_decide; [|lia].
  apply list_lookup_alter_eq.
Qed.

Lemma at_index_alter_ne (f : A → A) arr i j :
  (0 ≤ i)%Z → i ≠ j → at_index (alter f (Z.to_nat i) arr) j = at_index arr j.
Proof.
  intros. unfold at_index. case_decide; [|done].
  apply list_lookup_alter_ne. lia.
Qed.


End at_index.

Section with_column.
Implicit Types (tree : IConnectionOptions) (c : Column).

Lemma column_at_resolved tree si ti ci c :
  column_at tree si ti ci = Some c → (0 ≤ si)%Z ∧ (0 ≤ ti)%Z ∧ (0 ≤ ci)%Z.
Proof.
  unfold column_at. intros H.
  destruct (at_index (schemas tree) si) as [s|] eqn:Hs; simpl in H; [|done].
  destruct (at_index (schema_tables s) ti) as [t|] eqn:Ht; simpl in H; [|done].
  destruct (table_columns t) as [cols|]; simpl in H; [|done].
  apply at_index_Some in Hs, Ht, H. tauto.
Qed.

Lemma column_at_with_column_eq tree si ti ci c c' :
  column_at tree si ti ci = Some c →
  column_at (with_column tree si ti ci c') si ti ci = Some c'.
Proof.
  intros H. destruct (column_at_resolved _ _ _ _ _ H) as (? & ? & ?).
  revert H. unfold column_at, with_column. simpl.
  rewrite at_index_alter_eq by done.
  destruct (at_index (schemas tree) si) as [s|]; simpl; [|done].
  rewrite at_index_alter_eq by done.
  destruct (at_index (schema_tables s) ti) as [t|]; simpl; [|done].
  destruct (table_columns t) as [cols|]; simpl; [|done].
  rewrite at_index_alter_eq by done. by intros ->.
Qed.

Lemma column_at_with_column_ne tree si ti ci c' si' ti' ci' :
  (0 ≤ si)%Z → (0 ≤ ti)%Z → (0 ≤ ci)%Z →
  (si', ti', ci') ≠ (si, ti, ci) →
  column_at (with_column tree si ti ci c') si' ti' ci'
  = column_at tree si' ti' ci'.
Proof.
  intros ??? Hne. unfold column_at, with_column. simpl.
  destruct (decide (si = si')) as [<-|]; [|by rewrite at_index_alter_ne].
  rewrite at_index_alter_eq by done.
  destruct (at_index (schemas tree) si) as [s|]; simpl; [|done].
  destruct (decide (ti = ti')) as [<-|]; [|by rewrite at_index_alter_ne].
  rewrite at_index_alter_eq by done.
  destruct (at_index (schema_tables s) ti) as [t|]; simpl; [|done].
  destruct (table_columns t) as [cols|]; simpl; [|done].
  destruct (decide (ci = ci')) as [<-|]; [done|by rewrite at_index_alter_ne].
Qed.

Lemma fmap_alter_invariant {A B} (f : A → B) (g : A → A) (l : list A) i :
  (∀ x, f (g x) = f x) → f <$> alter g i l = f <$> l.
Proof.
  intros Hfg. apply list_eq. intros j.
  rewrite !list_lookup_fmap, list_lookup_alter.
  case_decide; [subst j|done].
  destruct (l !! i); simpl; [|done]. by rewrite Hfg.
Qed.

Lemma outline_with_column tree si ti ci c' :
  outline (with_column tree si ti ci c') = outline tree.
Proof.
  unfold outline, with_column. simpl.
  apply fmap_alter_invariant. intros s.
  unfold schema_outline. simpl. f_equal.
  apply fmap_alter_invariant. intros t.
  unfold table_outline. simpl. f_equal.
  destruct (table_columns t); simpl; [|done]. by rewrite length_alter.
Qed.
End with_column.

(** A tree is determined by its outline and its columns: what the two
    observations leave unchanged is unchanged in the tree. *)
Lemma at_index_nat {A} (arr : list A) (n : nat) :
  at_index arr (Z.of_nat n) = arr !! n.
Proof. unfold at_index. rewrite decide_True by lia. by rewrite Nat2Z.id. Qed.

Lemma column_at_nat (tree : IConnectionOptions) (i j k : nat) :
  column_at tree (Z.of_nat i) (Z.of_nat j) (Z.of_nat k)
  = s ← schemas tree !! i; t ← schema_tables s !! j;
    cols ← table_columns t; cols !! k.
Proof.
  unfold column_at. rewrite at_index_nat.
  destruct (schemas tree !! i) as [s|]; simpl; [|done]. rewrite at_index_nat.
  destruct (schema_tables s !! j) as [t|]; simpl; [|done].
  destruct (table_columns t) as [cols|]; simpl; [|done]. apply at_index_nat.
Qed.

Lemma tree_ext (tree1 tree2 : IConnectionOptions) :
  outline tree1 = outline tree2 →
  (∀ si ti ci, column_at tree1 si ti ci = column_at tree2 si ti ci) →
  tree1 = tree2.
Proof.
  intros Hout Hcol.
  destruct tree1 as [ss1], tree2 as [ss2]. f_equal.
  unfold outline in Hout. simpl in Hout.
  apply list_eq. intros i.
  pose proof (f_equal (λ l, l !! i) Hout) as Hi. simpl in Hi.
  rewrite !list_lookup_fmap in Hi.
  destruct (ss1 !! i) as [s1|] eqn:Hs1, (ss2 !! i) as [s2|] eqn:Hs2;
    simpl in Hi; try done.
  injection Hi as Hname Hen Htabs.
  destruct s1 as [n1 e1 ts1], s2 as [n2 e2 ts2]. simpl in *. subst.
  do 2 f_equal.
  apply list_eq. intros j.
  pose proof (f_equal (λ l, l !! j) Htabs) as Hj. simpl in Hj.
  rewrite !list_lookup_fmap in Hj.
  destruct (ts1 !! j) as [t1|] eqn:Ht1, (ts2 !! j) as [t2|] eqn:Ht2;
    simpl in Hj; try done.
  injection Hj as Htn Hte Htd Hlen.
  destruct t1 as [tn1 te1 td1 cs1], t2 as [tn2 te2 td2 cs2]. simpl in *. subst.
  do 2 f_equal.
  destruct cs1 as [c1|], cs2 as [c2|]; simpl in Hlen; try done.
  f_equal. apply list_eq. intros k.
  specialize (Hcol (Z.of_nat i) (Z.of_nat j) (Z.of_nat k)).
  rewrite !column_at_nat in Hcol. simpl in Hcol.
  rewrite Hs1, Hs2 in Hcol. simpl in Hcol.
  rewrite Ht1, Ht2 in Hcol. simpl in Hcol. done.
Qed.

(** ** Path-addressed edits *)

Section setColumnField.
Implicit Types (tree : IConnectionOptions) (a : FieldChange) (c : Column).

Lemma setColumnField_unresolved tree a :
  column_at tree (fc_schema_index a) (fc_table_index a) (fc_column_index a)
  = None →
  setColumnField tree a = Normal tree.
Proof. intros H. unfold setColumnField, structuredClone. by rewrite H. Qed.

Lemma setColumnField_column tree a c :
  column_at tree (fc_schema_index a) (fc_table_index a) (fc_column_index a)
  = Some c →
  (default (-1) (fc_relation_index a) < 0)%Z →
  setColumnField tree a
  = Normal (with_column tree (fc_schema_index a) (fc_table_index a)
              (fc_column_index a) (<[fc_name a := fc_value a]> c)).
Proof.
  intros H ?. unfold setColumnField, structuredClone. rewrite H.
  case_decide; [lia|done].
Qed.

Lemma setColumnField_no_relationship tree a c r :
  column_at tree (fc_schema_index a) (fc_table_index a) (fc_column_index a)
  = Some c →
  fc_relation_index a = Some r → (0 ≤ r)%Z →
  from_option truthy false (c !! "relationship") = false →
  setColumnField tree a = Normal tree.
Proof.
  intros H Hr ? Hrel. unfold setColumnField, structuredClone.
  rewrite H, Hr. simpl. case_decide; [|lia].
  destruct (c !! "relationship") as [v|]; simpl in *; [|done].
  by rewrite Hrel.
Qed.


Lemma setColumnField_relation_out_of_range tree a c r entries :
  column_at tree (fc_schema_index a) (fc_table_index a) (fc_column_index a)
  = Some c →
  fc_relation_index a = Some r →
  c !! "relationship" = Some (JArr entries) →
  (Z.of_nat (length entries) ≤ r)%Z →
  setColumnField tree a = Throw TypeError.
Proof.
  intros H Hr Hrel ?. unfold setColumnField, structuredClone.
  rewrite H, Hr. simpl. case_decide; [|lia].
  rewrite Hrel. simpl. by rewrite at_index_past_end.
Qed.
End setColumnField.




(** C1 (the failing case). The relation edit aimed at [users.status], a column
    that resolves and whose relationship sequence is the empty array: index
    [0] is past the end of the sequence, and the handler raises a [TypeError]
    instead of returning the tree. *)
Theorem setColumnField_stale_relation_raises :
  column_at Sample.tree 0 0 1 = Some Sample.status
  ∧ Sample.status !! "relationship" = Some (JArr [])
  ∧ setColumnField Sample.tree Sample.stale_relation = Throw TypeError.
Proof. repeat split; vm_compute; reflexivity. Qed.

(** ** The cascade between schema and tables *)

Section cascade.
Implicit Types (tree : IConnectionOptions) (s : Schema) (t : Table).

(** C3. For every tree, every index of an existing schema and every
    boolean, [setSchemaEnabled] stores the boolean in that schema's enabled
    flag and in the enabled flag of every table under it, whatever the flags
    were; the tables keep their other fields, and every other schema is as
    before. *)
Theorem setSchemaEnabled_cascade tree (i : nat) (b : bool) s :
  schemas tree !! i = Some s →
  ∃ s',
    schemas (setSchemaEnabled tree i b) !! i = Some s'
    ∧ schema_enabled s' = b
    ∧ schema_name s' = schema_name s
    ∧ length (schema_tables s') = length (schema_tables s)
    ∧ (∀ j t', schema_tables s' !! j = Some t' → table_enabled t' = b)
    ∧ (∀ j t, schema_tables s !! j = Some t →
         ∃ t', schema_tables s' !! j = Some t'
               ∧ table_enabled t' = b
               ∧ table_name t' = table_name t
               ∧ table_description t' = table_description t
               ∧ table_columns t' = table_columns t)
    ∧ (∀ i', i' ≠ i →
         schemas (setSchemaEnabled tree i b) !! i' = schemas tree !! i')
    ∧ length (schemas (setSchemaEnabled tree i b)) = length (schemas tree).
Proof.
  intros Hs. unfold setSchemaEnabled, schemaSwitch_onChange. simpl.
  eexists. split.
  { rewrite list_lookup_imap, Hs. simpl. by rewrite decide_True. }
  simpl. repeat split.
  - apply length_fmap.
  - intros j t' (t & -> & _)%list_lookup_fmap_Some. done.
  - intros j t Ht. eexists.
    split; [by rewrite list_lookup_fmap, Ht|done].
  - intros i' ?. rewrite list_lookup_imap.
    destruct (schemas tree !! i'); simpl; [|done].
    by rewrite decide_False.
  - apply length_imap.
Qed.

(** C7. For every tree, every pair of indices of an existing table and
    every boolean, [setTableEnabled] stores the boolean in that table's
    enabled flag and nowhere else: the table's other fields and columns, the
    schema's name and enabled flag, every other table of the schema and
    every other schema are as before, whatever the flags were. *)
Theorem setTableEnabled_frame tree (i j : nat) (b : bool) s t :
  schemas tree !! i = Some s →
  schema_tables s !! j = Some t →
  ∃ s' t',
    schemas (setTableEnabled tree i j b) !! i = Some s'
    ∧ schema_enabled s' = schema_enabled s
    ∧ schema_name s' = schema_name s
    ∧ schema_tables s' !! j = Some t'
    ∧ table_enabled t' = b
    ∧ table_name t' = table_name t
    ∧ table_description t' = table_description t
    ∧ table_columns t' = table_columns t
    ∧ (∀ j', j' ≠ j → schema_tables s' !! j' = schema_tables s !! j')
    ∧ length (schema_tables s') = length (schema_tables s)
    ∧ (∀ i', i' ≠ i →
         schemas (setTableEnabled tree i j b) !! i' = schemas tree !! i')
    ∧ length (schemas (setTableEnabled tree i j b)) = length (schemas tree).
Proof.
  intros Hs Ht. unfold setTableEnabled, tableSwitch_onChange. simpl.
  eexists _, _. split.
  { rewrite list_lookup_imap, Hs. simpl. by rewrite decide_True. }
  simpl. split; [done|]. split; [done|]. split.
  { rewrite list_lookup_imap, Ht. simpl. by rewrite decide_True. }
  simpl. repeat split.
  - intros j' ?. rewrite list_lookup_imap.
    destruct (schema_tables s !! j'); simpl; [|done].
    by rewrite decide_False.
  - apply length_imap.
  - intros i' ?. rewrite list_lookup_imap.
    destruct (schemas tree !! i'); simpl; [|done].
    by rewrite decide_False.
  - apply length_imap.
Qed.

End cascade.

Lemma setSchemaEnabled_cascade_witness :
  ∃ s',
    schemas (setSchemaEnabled Sample.tree 0 true) !! 0 = Some s'
    ∧ schema_enabled s' = true
    ∧ schema_name s' = "public"
    ∧ length (schema_tables s') = 2
    ∧ (∀ j t', schema_tables s' !! j = Some t' → table_enabled t' = true)
    ∧ (∀ j t, [Sample.users; Sample.sessions] !! j = Some t →
         ∃ t', schema_tables s' !! j = Some t'
               ∧ table_enabled t' = true
               ∧ table_name t' = table_name t
               ∧ table_description t' = table_description t
               ∧ table_columns t' = table_columns t)
    ∧ (∀ i', i' ≠ 0 →
         schemas (setSchemaEnabled Sample.tree 0 true) !! i'
         = schemas Sample.tree !! i')
    ∧ length (schemas (setSchemaEnabled Sample.tree 0 true)) = 2.
Proof.
  apply (setSchemaEnabled_cascade Sample.tree 0 true
           {| schema_name := "public"; schema_enabled := false;
              schema_tables := [Sample.users; Sample.sessions] |}).
  reflexivity.
Defined.

Lemma setTableEnabled_frame_witness :
  ∃ s' t',
    schemas (setTableEnabled Sample.tree 0 0 false) !! 0 = Some s'
    ∧ schema_enabled s' = false
    ∧ schema_name s' = "public"
    ∧ schema_tables s' !! 0 = Some t'
    ∧ table_enabled t' = false
    ∧ table_name t' = "users"
    ∧ table_description t' = Some "accounts"
    ∧ table_columns t' = Some [Sample.id; Sample.status]
    ∧ (∀ j', j' ≠ 0 →
         schema_tables s' !! j' = [Sample.users; Sample.sessions] !! j')
    ∧ length (schema_tables s') = 2
    ∧ (∀ i', i' ≠ 0 →
         schemas (setTableEnabled Sample.tree 0 0 false) !! i'
         = schemas Sample.tree !! i')
    ∧ length (schemas (setTableEnabled Sample.tree 0 0 false)) = 2.
Proof.
  apply (setTableEnabled_frame Sample.tree 0 0 false
           {| schema_name := "public"; schema_enabled := false;
              schema_tables := [Sample.users; Sample.sessions] |}
           Sample.users); reflexivity.
Defined.


(** ** The unsaved-changes flag *)

(** C4 (as the code has it). Every edit sets the unsaved-changes flag, whether
    or not it changes anything. A tree handed to the session through
    [setOptions] is stored and sets the flag; so do the name and
    connection-string inputs, the schema switch and the table switch; the
    field handler does whenever it completes normally, and a write whose path
    does not resolve completes normally with the tree it started from and
    sets the flag like any other. When the handler raises, the session is
    left as it was. *)
Theorem every_edit_sets_unsavedChanges (options : IConnectionOptions)
    (a : FieldChange) (i j : nat) (b : bool) (st : EditorState) :
  (∀ newOptions,
     unsavedChanges (setOptions newOptions st) = true
     ∧ edit_options (editFields (setOptions newOptions st)) = Some newOptions)
  ∧ (∀ value,
       unsavedChanges (nameInput_onChange value st) = true
       ∧ unsavedChanges (dsnInput_onChange value st) = true)
  ∧ unsavedChanges (schemaSwitch_onChange options setOptions i b st) = true
  ∧ unsavedChanges (tableSwitch_onChange options setOptions i j b st) = true
  ∧ (∀ newOptions,
       setColumnField options a = Normal newOptions →
       columnFieldChangeHandler options setOptions a st
       = (setOptions newOptions st, Normal ()))
  ∧ (∀ e,
       setColumnField options a = Throw e →
       columnFieldChangeHandler options setOptions a st = (st, Throw e))
  ∧ (column_at options (fc_schema_index a) (fc_table_index a)
       (fc_column_index a) = None →
     columnFieldChangeHandler options setOptions a st
     = ({| editFields :=
             {| edit_name := edit_name (editFields st);
                edit_dsn := edit_dsn (editFields st);
                edit_options := Some options |};
           unsavedChanges := true |}, Normal ())).
Proof.
  unfold columnFieldChangeHandler.
  split; [done|]. split; [done|]. split; [done|]. split; [done|].
  split; [by intros newOptions ->|]. split; [by intros e ->|].
  intros H. by rewrite setColumnField_unresolved.
Qed.

(** C4, against the specification's exception for no-ops: in the editor that
    has just loaded the sample connection nothing is unsaved; the write to a
    column that the table does not have leaves the tree as it is, and the
    flag is set afterwards. *)
Lemma stale_write_sets_unsavedChanges :
  unsavedChanges Sample.clean = false
  ∧ edit_options (editFields Sample.clean) = Some Sample.tree
  ∧ valid_path Sample.tree Sample.stale_column = false
  ∧ ∃ st',
      applyFieldChange Sample.stale_column Sample.clean = (st', Normal ())
      ∧ edit_options (editFields st') = Some Sample.tree
      ∧ unsavedChanges st' = true.
Proof.
  split; [reflexivity|]. split; [reflexivity|].
  split; [vm_compute; reflexivity|].
  eexists. split; [vm_compute; reflexivity|]. split; reflexivity.
Qed.

(** ** Enrichment *)

(** The ways an enrichment function gets past its [try] block: array data
    given to the handler (which ends in some way), other data or none, a
    rejection. *)
Ltac settle_cases settled :=
  let result := fresh "result" in
  destruct settled as [result|?];
  [destruct (array_data result);
   [destruct (columnFieldChangeHandler _ _ _ _)|]|].

Section enrichment.
Context {State : Type}.
Variable connectionId : string.
Variable options : IConnectionOptions.
Variable setOptions : IConnectionOptions → State → State.
Implicit Types (w : SchemaEditorState * State) (settled : Settled).

(** C5. Every call of [updatePossibleValues] stops at its [await] of the
    provider in a state whose possible-values map holds [true] at the key of
    the path, and, however the provider settles (data, no usable data,
    rejection) and whatever the state is by then, finishes in a state whose
    map holds [false] at that key. [updateRelationships] does the same on
    the relationships map. *)
Theorem loading_flag_set_then_cleared
    (schema_name table_name column_name column_type : string)
    (column_index table_index schema_index : Z) w :
  let key := loading_key schema_index table_index column_index in
  (∃ w1 resume,
     updatePossibleValues connectionId options setOptions schema_name
       table_name column_name column_index table_index schema_index w
     = Awaiting w1
         (getPossibleValues connectionId schema_name table_name column_name)
         resume
     ∧ loadingPossibleValuesMap w1.1 !! key = Some true
     ∧ ∀ settled w2, ∃ w3 c,
         resume settled w2 = Finished w3 c
         ∧ loadingPossibleValuesMap w3.1 !! key = Some false)
  ∧ (∃ w1 resume,
       updateRelationships connectionId options setOptions schema_name
         table_name column_name column_type column_index table_index
         schema_index w
       = Awaiting w1
           (getRelationships connectionId schema_name table_name column_name
              column_type)
           resume
       ∧ loadingRelationshipsMap w1.1 !! key = Some true
       ∧ ∀ settled w2, ∃ w3 c,
           resume settled w2 = Finished w3 c
           ∧ loadingRelationshipsMap w3.1 !! key = Some false).
Proof.
  intros key. split.
  - eexists _, _. split; [reflexivity|]. split; [apply lookup_insert_eq|].
    intros settled w2. simpl.
    settle_cases settled;
      (eexists _, _; split; [reflexivity|apply lookup_insert_eq]).
  - eexists _, _. split; [reflexivity|]. split; [apply lookup_insert_eq|].
    intros settled w2. simpl.
    settle_cases settled;
      (eexists _, _; split; [reflexivity|apply lookup_insert_eq]).
Qed.


End enrichment.


(** ** Saving *)

Section saving.
Variable connectionId : string.
Variable connection : option IConnection.
Implicit Types (st : EditorState) (r : SaveResult).

(** C9 (as the code has it). The save button requests a save only while
    something is unsaved and a connection id is present; the request then
    carries the edited name, the schema options and, when it differs from
    the loaded one, the connection string. With nothing unsaved it only
    navigates away, and without a connection id it does nothing. Whatever
    the save collaborator answers, and in particular when the save fails,
    the edited fields and the unsaved-changes flag are as before. *)
Theorem commit_requests_save_when_unsaved st r :
  (commit connectionId connection r st).1 = st
  ∧ (commit connectionId connection r st).2
    = if unsavedChanges st then
        if decide (connectionId = "") then []
        else
          updateConnection connectionId
            {| payload_name := edit_name (editFields st);
               payload_dsn :=
                 if decide (connection_dsn <$> connection
                            = Some (edit_dsn (editFields st)))
                 then None else Some (edit_dsn (editFields st));
               payload_options := edit_options (editFields st) |}
          :: match r with
             | SaveSucceeded => [navigate "/"]
             | SaveFailed _ => []
             end
      else [navigate "/"].
Proof.
  unfold commit, handleSubmit.
  destruct (unsavedChanges st); simpl; [|done].
  destruct (String.eqb_spec connectionId "") as [->|Hid]; [done|].
  destruct (decide (connectionId = "")) as [|_]; [done|]. simpl.
  destruct r; simpl; (split; [done|]); do 3 f_equal;
    repeat case_decide; congruence.
Qed.

End saving.

(** C9, against the specification's unconditional save: with nothing unsaved
    the save button hands nothing to the save collaborator, it only navigates
    away. *)
Lemma commit_without_changes_saves_nothing :
  unsavedChanges Sample.clean = false
  ∧ (handleSubmit "7" (Some Sample.loaded) Sample.clean).2 = [navigate "/"]
  ∧ ∀ r payload,
      updateConnection "7" payload
        ∉ (commit "7" (Some Sample.loaded) r Sample.clean).2.
Proof.
  split; [reflexivity|]. split; [reflexivity|].
  intros r payload. by intros [=]%list_elem_of_singleton.
Qed.


(** ** Further properties of the path-addressed edits *)

Section setColumnField_more.
Implicit Types (tree : IConnectionOptions) (a b : FieldChange) (c : Column).

(** What [setColumnField] can return normally: the tree itself, or the tree
    with a new column at the resolved path. *)
Lemma setColumnField_Normal_inv tree a tree' :
  setColumnField tree a = Normal tree' →
  tree' = tree
  ∨ ∃ c c',
      column_at tree (fc_schema_index a) (fc_table_index a) (fc_column_index a)
      = Some c
      ∧ tree' = with_column tree (fc_schema_index a) (fc_table_index a)
                  (fc_column_index a) c'.
Proof.
  unfold setColumnField, structuredClone.
  destruct (column_at tree _ _ _) as [c|] eqn:Hc; [|intros [= <-]; by left].
  case_decide.
  - destruct (c !! "relationship") as [rel|]; [|intros [= <-]; by left].
    destruct (truthy rel); [|intros [= <-]; by left].
    destruct (assignElementMember _ _ _ _) as [rel'| |]; simpl; [|done..].
    intros [= <-]. right. by eexists _, _.
  - intros [= <-]. right. by eexists _, _.
Qed.

(** A write without a relation index, or with a negative one, always
    completes normally, and the columns of its result are those of the tree
    with the field set in the addressed column, if there is one. *)
Lemma setColumnField_column_level tree a :
  (default (-1) (fc_relation_index a) < 0)%Z →
  ∃ tree',
    setColumnField tree a = Normal tree'
    ∧ outline tree' = outline tree
    ∧ ∀ si ti ci,
        column_at tree' si ti ci
        = if decide ((si, ti, ci)
                     = (fc_schema_index a, fc_table_index a, fc_column_index a))
          then <[fc_name a := fc_value a]> <$> column_at tree si ti ci
          else column_at tree si ti ci.
Proof.
  intros Hr.
  destruct (column_at tree (fc_schema_index a) (fc_table_index a)
              (fc_column_index a)) as [c|] eqn:Hc.
  - eexists. split; [by apply setColumnField_column|].
    split; [apply outline_with_column|].
    destruct (column_at_resolved _ _ _ _ _ Hc) as (? & ? & ?).
    intros si ti ci. case_decide as Heq.
    + injection Heq as -> -> ->. rewrite Hc. simpl.
      by eapply column_at_with_column_eq.
    + by apply column_at_with_column_ne.
  - exists tree. split; [by apply setColumnField_unresolved|]. split; [done|].
    intros si ti ci. case_decide as Heq; [|done].
    injection Heq as -> -> ->. by rewrite Hc.
Qed.
End setColumnField_more.

(** X1. A write whose path stops at a guarded level (the schema, table or
    column index does not resolve, or the column has no relationship while a
    relation index is given) returns the tree it was given and raises
    nothing. *)
Theorem stale_path_is_noop (tree : IConnectionOptions) (a : FieldChange) :
  column_at tree (fc_schema_index a) (fc_table_index a) (fc_column_index a)
  = None
  ∨ (∃ c r,
       column_at tree (fc_schema_index a) (fc_table_index a)
         (fc_column_index a) = Some c
       ∧ fc_relation_index a = Some r ∧ (0 ≤ r)%Z
       ∧ from_option truthy false (c !! "relationship") = false) →
  setColumnField tree a = Normal tree.
Proof.
  intros [H|(c & r & Hc & Hr & ? & Hrel)].
  - by apply setColumnField_unresolved.
  - by eapply setColumnField_no_relationship.
Qed.

Lemma stale_path_is_noop_witness :
  setColumnField Sample.tree Sample.stale_column = Normal Sample.tree.
Proof.
  apply (stale_path_is_noop Sample.tree Sample.stale_column).
  left. vm_compute. reflexivity.
Defined.

(** X2. A relation index at or past the end of a column's relationship array
    makes the handler raise a [TypeError] before it reaches [setOptions]: the
    state of the parent is exactly what it was. *)
Theorem missing_entry_raises_and_stores_nothing {State : Type}
    (options : IConnectionOptions)
    (setOptions : IConnectionOptions → State → State) (a : FieldChange)
    (st : State) (c : Column) (r : Z) (entries : list JsValue) :
  column_at options (fc_schema_index a) (fc_table_index a) (fc_column_index a)
  = Some c →
  fc_relation_index a = Some r →
  c !! "relationship" = Some (JArr entries) →
  (Z.of_nat (length entries) ≤ r)%Z →
  columnFieldChangeHandler options setOptions a st = (st, Throw TypeError).
Proof.
  intros Hc Hr Hrel Hlen. unfold columnFieldChangeHandler.
  by erewrite setColumnField_relation_out_of_range.
Qed.

Lemma missing_entry_raises_and_stores_nothing_witness :
  columnFieldChangeHandler Sample.tree setOptions Sample.stale_relation
    Sample.clean
  = (Sample.clean, Throw TypeError).
Proof.
  apply (missing_entry_raises_and_stores_nothing Sample.tree setOptions
           Sample.stale_relation Sample.clean Sample.status 0 []);
    vm_compute; first [reflexivity | discriminate].
Defined.

(** X3. No write adds, removes or moves anything: after a normal completion
    the outline of schemas and tables is the same and exactly the same paths
    resolve to a column. *)
Theorem setColumnField_keeps_shape (tree tree' : IConnectionOptions)
    (a : FieldChange) :
  setColumnField tree a = Normal tree' →
  outline tree' = outline tree
  ∧ ∀ si ti ci,
      is_Some (column_at tree' si ti ci) ↔ is_Some (column_at tree si ti ci).
Proof.
  intros [->|(c & c' & Hc & ->)]%setColumnField_Normal_inv; [done|].
  split; [apply outline_with_column|].
  destruct (column_at_resolved _ _ _ _ _ Hc) as (? & ? & ?).
  intros si ti ci.
  destruct (decide ((si, ti, ci)
                    = (fc_schema_index a, fc_table_index a, fc_column_index a)))
    as [Heq|Hne].
  - injection Heq as -> -> ->. rewrite Hc.
    erewrite column_at_with_column_eq by done. by split; eexists.
  - by rewrite column_at_with_column_ne.
Qed.

Lemma setColumnField_keeps_shape_witness :
  ∃ tree',
    setColumnField Sample.tree Sample.disable_relation = Normal tree'
    ∧ outline tree' = outline Sample.tree
    ∧ ∀ si ti ci,
        is_Some (column_at tree' si ti ci)
        ↔ is_Some (column_at Sample.tree si ti ci).
Proof.
  eexists. split; [vm_compute; reflexivity|].
  apply (setColumnField_keeps_shape Sample.tree _ Sample.disable_relation).
  vm_compute. reflexivity.
Defined.

(** X4. Two writes to the same field of the same column, neither through a
    relation index: the second value wins, and the result is the same as if
    only the second write had happened. *)
Theorem column_write_last_wins (tree : IConnectionOptions) (a b : FieldChange) :
  (default (-1) (fc_relation_index a) < 0)%Z →
  (default (-1) (fc_relation_index b) < 0)%Z →
  (fc_schema_index a, fc_table_index a, fc_column_index a)
  = (fc_schema_index b, fc_table_index b, fc_column_index b) →
  fc_name a = fc_name b →
  setColumnField tree a ≫= (λ tree1, setColumnField tree1 b)
  = setColumnField tree b.
Proof.
  intros Ha Hb Hpath Hname.
  destruct (setColumnField_column_level tree a Ha) as (t1 & -> & Ho1 & Hc1).
  simpl.
  destruct (setColumnField_column_level t1 b Hb) as (t2 & -> & Ho2 & Hc2).
  destruct (setColumnField_column_level tree b Hb) as (t3 & -> & Ho3 & Hc3).
  f_equal. apply tree_ext; [congruence|].
  intros si ti ci. rewrite Hc2, Hc3, Hc1, <-Hpath.
  case_decide; [|done].
  destruct (column_at tree si ti ci) as [c|]; simpl; [|done].
  by rewrite Hname, insert_insert_eq.
Qed.

(** X5. Two writes, neither through a relation index, that differ in the
    column or in the field commute: either order gives the same tree. *)
Theorem column_writes_commute (tree : IConnectionOptions) (a b : FieldChange) :
  (default (-1) (fc_relation_index a) < 0)%Z →
  (default (-1) (fc_relation_index b) < 0)%Z →
  (fc_schema_index a, fc_table_index a, fc_column_index a, fc_name a)
  ≠ (fc_schema_index b, fc_table_index b, fc_column_index b, fc_name b) →
  setColumnField tree a ≫= (λ tree1, setColumnField tree1 b)
  = setColumnField tree b ≫= (λ tree1, setColumnField tree1 a).
Proof.
  intros Ha Hb Hne.
  destruct (setColumnField_column_level tree a Ha) as (ta & -> & Hoa & Hca).
  destruct (setColumnField_column_level tree b Hb) as (tb & -> & Hob & Hcb).
  simpl.
  destruct (setColumnField_column_level ta b Hb) as (tab & -> & Hoab & Hcab).
  destruct (setColumnField_column_level tb a Ha) as (tba & -> & Hoba & Hcba).
  f_equal. apply tree_ext; [congruence|].
  intros si ti ci. rewrite Hcab, Hcba, Hca, Hcb.
  repeat case_decide; try done.
  destruct (column_at tree si ti ci) as [c|]; simpl; [|done].
  f_equal. apply insert_insert_ne. congruence.
Qed.

(** ** Further properties of the cascade *)

Section cascade_more.
Implicit Types (tree : IConnectionOptions) (s : Schema) (t : Table).

Lemma imap_id_on_lookups {A} (f : nat → A → A) (l : list A) :
  (∀ k x, l !! k = Some x → f k x = x) → imap f l = l.
Proof.
  intros Hf. apply list_eq. intros k. rewrite list_lookup_imap.
  destruct (l !! k) as [x|] eqn:Hx; simpl; [|done]. by rewrite (Hf k x).
Qed.

Lemma at_index_fmap {A B} (f : A → B) (l : list A) (i : Z) :
  at_index (f <$> l) i = f <$> at_index l i.
Proof. unfold at_index. case_decide; [apply list_lookup_fmap|done]. Qed.

Lemma at_index_imap {A B} (f : nat → A → B) (l : list A) (i : Z) :
  at_index (imap f l) i = f (Z.to_nat i) <$> at_index l i.
Proof. unfold at_index. case_decide; [apply list_lookup_imap|done]. Qed.

(** X6. The schema switch and the table switch never touch a column: every
    path resolves to the same column before and after, and the tree keeps its
    numbers of schemas, tables and columns, their names and descriptions. *)
Theorem cascade_keeps_columns tree (i j : nat) (b : bool) :
  (∀ si ti ci,
     column_at (setSchemaEnabled tree i b) si ti ci = column_at tree si ti ci)
  ∧ (∀ si ti ci,
       column_at (setTableEnabled tree i j b) si ti ci
       = column_at tree si ti ci)
  ∧ labels (setSchemaEnabled tree i b) = labels tree
  ∧ labels (setTableEnabled tree i j b) = labels tree.
Proof.
  unfold setSchemaEnabled, setTableEnabled, schemaSwitch_onChange,
    tableSwitch_onChange, labels.
  split; [|split; [|split]].
  - intros si ti ci. unfold column_at. simpl. rewrite at_index_imap.
    destruct (at_index (schemas tree) si) as [s|]; simpl; [|done].
    case_decide; [|done]. simpl. rewrite at_index_fmap.
    by destruct (at_index (schema_tables s) ti).
  - intros si ti ci. unfold column_at. simpl. rewrite at_index_imap.
    destruct (at_index (schemas tree) si) as [s|]; simpl; [|done].
    case_decide; [|done]. simpl. rewrite at_index_imap.
    destruct (at_index (schema_tables s) ti) as [t|]; simpl; [|done].
    by case_decide.
  - simpl. apply list_eq. intros k.
    rewrite !list_lookup_fmap, list_lookup_imap.
    destruct (schemas tree !! k) as [s|]; simpl; [|done].
    case_decide; [|done]. unfold schema_label. simpl. do 2 f_equal.
    by rewrite <-list_fmap_compose.
  - simpl. apply list_eq. intros k.
    rewrite !list_lookup_fmap, list_lookup_imap.
    destruct (schemas tree !! k) as [s|]; simpl; [|done].
    case_decide; [|done]. unfold schema_label. simpl. do 2 f_equal.
    apply list_eq. intros m.
    rewrite !list_lookup_fmap, list_lookup_imap.
    destruct (schema_tables s !! m) as [t|]; simpl; [|done].
    by case_decide.
Qed.

(** X7. A switch whose index addresses nothing changes nothing: the schema
    switch past the last schema, the table switch past the last schema or
    past the last table of its schema. *)
Theorem cascade_out_of_range tree (i j : nat) (b : bool) :
  (length (schemas tree) ≤ i → setSchemaEnabled tree i b = tree)
  ∧ (length (schemas tree) ≤ i → setTableEnabled tree i j b = tree)
  ∧ (∀ s, schemas tree !! i = Some s → length (schema_tables s) ≤ j →
       setTableEnabled tree i j b = tree).
Proof.
  unfold setSchemaEnabled, setTableEnabled, schemaSwitch_onChange,
    tableSwitch_onChange.
  destruct tree as [ss]. simpl. split; [|split].
  - intros Hlen. f_equal. apply imap_id_on_lookups. intros k s Hk.
    apply lookup_lt_Some in Hk. case_decide; [lia|done].
  - intros Hlen. f_equal. apply imap_id_on_lookups. intros k s Hk.
    apply lookup_lt_Some in Hk. case_decide; [lia|done].
  - intros s Hs Hlen. f_equal. apply imap_id_on_lookups. intros k s' Hk.
    case_decide; [subst k|done].
    assert (s' = s) as -> by congruence. destruct s as [n e ts]. simpl in *.
    f_equal. apply imap_id_on_lookups. intros m t Hm.
    apply lookup_lt_Some in Hm. case_decide; [lia|done].
Qed.

(** X8. The schema switch overwrites: flipped after an earlier flip of the
    same schema, or after a flip of one of its tables, it gives the tree that
    it gives without the earlier flip. A schema switched off and then on has
    every table enabled, whatever the tables were before. *)
Theorem setSchemaEnabled_overwrites tree (i j : nat) (b b' : bool) :
  setSchemaEnabled (setSchemaEnabled tree i b') i b = setSchemaEnabled tree i b
  ∧ setSchemaEnabled (setTableEnabled tree i j b') i b
    = setSchemaEnabled tree i b.
Proof.
  unfold setSchemaEnabled, setTableEnabled, schemaSwitch_onChange,
    tableSwitch_onChange. simpl.
  split; f_equal; apply list_eq; intros k;
    rewrite !list_lookup_imap;
    (destruct (schemas tree !! k) as [s|]; simpl; [|done]);
    (case_decide; [|done]); simpl; do 2 f_equal.
  - by rewrite <-list_fmap_compose.
  - apply list_eq. intros m. rewrite !list_lookup_fmap, list_lookup_imap.
    destruct (schema_tables s !! m) as [t|]; simpl; [|done].
    by case_decide.
Qed.

(** X9. Table switches: the later flip of the same table wins, and flips of
    different tables commute. *)
Theorem setTableEnabled_composes tree (i j i' j' : nat) (b b' : bool) :
  setTableEnabled (setTableEnabled tree i j b') i j b
  = setTableEnabled tree i j b
  ∧ ((i, j) ≠ (i', j') →
     setTableEnabled (setTableEnabled tree i j b) i' j' b'
     = setTableEnabled (setTableEnabled tree i' j' b') i j b).
Proof.
  unfold setTableEnabled, tableSwitch_onChange. simpl. split.
  - f_equal. apply list_eq. intros k. rewrite !list_lookup_imap.
    destruct (schemas tree !! k) as [s|]; simpl; [|done].
    case_decide; [|done]. simpl. do 2 f_equal.
    apply list_eq. intros m. rewrite !list_lookup_imap.
    destruct (schema_tables s !! m) as [t|]; simpl; [|done].
    by case_decide.
  - intros Hne. f_equal. apply list_eq. intros k. rewrite !list_lookup_imap.
    destruct (schemas tree !! k) as [s|]; simpl; [|done].
    repeat (case_decide; simpl); try done. do 2 f_equal.
    apply list_eq. intros m. rewrite !list_lookup_imap.
    destruct (schema_tables s !! m) as [t|]; simpl; [|done].
    repeat (case_decide; simpl); try done. congruence.
Qed.


(** X11. Under a disabled schema a table switch changes nothing on screen:
    the rendered switches after the flip are those before it. *)
Theorem table_switch_invisible_under_disabled_schema tree (i j : nat)
    (b : bool) s :
  schemas tree !! i = Some s →
  schema_enabled s = false →
  render_switches (setTableEnabled tree i j b) = render_switches tree.
Proof.
  intros Hs Hoff. unfold render_switches, setTableEnabled,
    tableSwitch_onChange. simpl.
  apply list_eq. intros k. rewrite !list_lookup_fmap, list_lookup_imap.
  destruct (schemas tree !! k) as [s'|] eqn:Hk; simpl; [|done].
  destruct (decide (k = i)) as [->|]; [|done].
  assert (s' = s) as -> by congruence. simpl. rewrite length_imap.
  destruct (decide (length (schema_tables s) = 0)); [done|]. do 3 f_equal.
  apply list_eq. intros m. rewrite !list_lookup_fmap, list_lookup_imap.
  destruct (schema_tables s !! m) as [t|]; simpl; [|done].
  unfold tableSwitch_checked. simpl. rewrite Hoff.
  by rewrite !andb_false_r.
Qed.
End cascade_more.

(** ** The table description *)

Section setTableDescription.
Implicit Types (tree : IConnectionOptions) (s : Schema) (t : Table).

Lemma table_at_resolved tree si ti t :
  table_at tree si ti = Some t → (0 ≤ si)%Z ∧ (0 ≤ ti)%Z.
Proof.
  unfold table_at. intros H.
  destruct (at_index (schemas tree) si) as [s|] eqn:Hs; simpl in H; [|done].
  apply at_index_Some in Hs, H. tauto.
Qed.

Lemma table_at_with_table tree si ti t t' si' ti' :
  table_at tree si ti = Some t →
  table_at (with_table tree si ti t') si' ti'
  = if decide ((si', ti') = (si, ti)) then Some t' else table_at tree si' ti'.
Proof.
  intros Ht. destruct (table_at_resolved _ _ _ _ Ht) as [? ?].
  revert Ht. unfold table_at, with_table. simpl. intros Ht.
  destruct (decide (si = si')) as [<-|].
  - rewrite at_index_alter_eq by done.
    destruct (at_index (schemas tree) si) as [s|]; simpl in *; [|done].
    destruct (decide (ti = ti')) as [<-|].
    + rewrite decide_True by done. rewrite at_index_alter_eq by done.
      by rewrite Ht.
    + rewrite decide_False by congruence. by rewrite at_index_alter_ne.
  - rewrite decide_False by congruence. by rewrite at_index_alter_ne.
Qed.

Lemma column_at_table_at tree si ti ci :
  column_at tree si ti ci
  = t ← table_at tree si ti; cols ← table_columns t; at_index cols ci.
Proof.
  unfold column_at, table_at.
  by destruct (at_index (schemas tree) si).
Qed.

(** X12. The description handler writes the text into the description of the
    addressed table and into nothing else: the table keeps its name, flag and
    columns, every other table is as before, every path resolves to the same
    column, and the schemas keep their names, flags and numbers of tables.
    When the indices address no table the tree is returned as it is. *)
Theorem setTableDescription_frame tree (value : string) (table_index
    schema_index : Z) :
  let tree' := setTableDescription tree value table_index schema_index in
  (table_at tree schema_index table_index = None → tree' = tree)
  ∧ (∀ t, table_at tree schema_index table_index = Some t →
       ∃ t', table_at tree' schema_index table_index = Some t'
             ∧ table_description t' = Some value
             ∧ table_name t' = table_name t
             ∧ table_enabled t' = table_enabled t
             ∧ table_columns t' = table_columns t)
  ∧ (∀ si ti, (si, ti) ≠ (schema_index, table_index) →
       table_at tree' si ti = table_at tree si ti)
  ∧ (∀ si ti ci, column_at tree' si ti ci = column_at tree si ti ci)
  ∧ (λ s, (schema_name s, schema_enabled s, length (schema_tables s)))
      <$> schemas tree'
    = (λ s, (schema_name s, schema_enabled s, length (schema_tables s)))
        <$> schemas tree.
Proof.
  intros tree'. subst tree'. unfold setTableDescription, structuredClone.
  destruct (table_at tree schema_index table_index) as [t|] eqn:Ht.
  - split; [done|]. split.
    { intros ? [= <-]. eexists.
      split; [erewrite table_at_with_table by done; by rewrite decide_True|].
      done. }
    split.
    { intros si ti Hne. erewrite table_at_with_table by done.
      by rewrite decide_False. }
    split.
    { intros si ti ci. rewrite !column_at_table_at.
      erewrite table_at_with_table by done.
      case_decide as Heq; [|done]. injection Heq as -> ->.
      by rewrite Ht. }
    unfold with_table. simpl. apply fmap_alter_invariant.
    intros s. simpl. by rewrite length_alter.
  - split; [done|]. split; [done|]. done.
Qed.
End setTableDescription.

(** ** The unfolded rows *)


(** ** The keys of the loading maps *)

Section loading_keys.

Lemma is_digit_pretty_N_char (x : N) : is_digit (pretty_N_char x) = true.
Proof. unfold pretty_N_char. by repeat case_match. Qed.

Lemma pretty_N_go_digits (x : N) (s : string) :
  all_digits s = true → all_digits (pretty_N_go x s) = true.
Proof.
  revert s. induction (N.lt_wf_0 x) as [x _ IH]. intros s Hs.
  assert (x = 0 ∨ 0 < x)%N as [->|?] by lia.
  - by rewrite pretty_N_go_0.
  - rewrite pretty_N_go_step by done. apply IH; [by apply N.div_lt|].
    simpl. by rewrite is_digit_pretty_N_char, Hs.
Qed.

Lemma pretty_N_go_nonempty (x : N) (s : string) :
  s ≠ "" → pretty_N_go x s ≠ "".
Proof.
  revert s. induction (N.lt_wf_0 x) as [x _ IH]. intros s Hs.
  assert (x = 0 ∨ 0 < x)%N as [->|?] by lia.
  - by rewrite pretty_N_go_0.
  - rewrite pretty_N_go_step by done. apply IH; [by apply N.div_lt|done].
Qed.

Lemma pretty_N_digits (x : N) :
  pretty x ≠ "" ∧ all_digits (pretty x) = true.
Proof.
  unfold pretty, pretty_N. case_decide; [done|]. split.
  - rewrite pretty_N_go_step by lia. by apply pretty_N_go_nonempty.
  - by apply pretty_N_go_digits.
Qed.

(** A decimal numeral: digits, with a minus sign in front or not. *)
Lemma pretty_Z_numeral (z : Z) :
  ∃ d, d ≠ "" ∧ all_digits d = true
       ∧ (pretty z = d ∨ pretty z = "-" +:+ d).
Proof.
  destruct z as [|p|p]; unfold pretty, pretty_Z.
  - exists "0". by auto.
  - exists (pretty (N.pos p)). destruct (pretty_N_digits (N.pos p)). auto.
  - exists (pretty (N.pos p)). destruct (pretty_N_digits (N.pos p)). auto.
Qed.

Lemma digits_split (d1 d2 r1 r2 : string) :
  all_digits d1 = true → all_digits d2 = true →
  d1 +:+ "-" +:+ r1 = d2 +:+ "-" +:+ r2 → d1 = d2 ∧ r1 = r2.
Proof.
  revert d2. induction d1 as [|c1 d1 IH]; intros [|c2 d2]; simpl.
  - intros _ _ [= ?]. by subst.
  - intros _ [Hc _]%andb_prop [= ? _]. by subst.
  - intros [Hc _]%andb_prop _ [= ? _]. by subst.
  - intros [_ H1]%andb_prop [_ H2]%andb_prop [= ? Heq]. subst.
    by destruct (IH d2 H1 H2 Heq) as [-> ->].
Qed.

Lemma numeral_split (z1 z2 : Z) (r1 r2 : string) :
  pretty z1 +:+ "-" +:+ r1 = pretty z2 +:+ "-" +:+ r2 → z1 = z2 ∧ r1 = r2.
Proof.
  destruct (pretty_Z_numeral z1) as (d1 & Hne1 & Hd1 & Hz1).
  destruct (pretty_Z_numeral z2) as (d2 & Hne2 & Hd2 & Hz2).
  intros Heq.
  assert (pretty z1 = pretty z2 ∧ r1 = r2) as [Hp ->];
    [|split; [by apply (inj pretty)|done]].
  destruct Hz1 as [Hz1|Hz1], Hz2 as [Hz2|Hz2]; rewrite Hz1, Hz2 in *.
  - by apply digits_split.
  - destruct d1 as [|c d1]; [done|]. simpl in *.
    apply andb_prop in Hd1 as [Hc _]. injection Heq as ? _. by subst.
  - destruct d2 as [|c d2]; [done|]. simpl in *.
    apply andb_prop in Hd2 as [Hc _]. injection Heq as ? _. by subst.
  - simpl in Heq. injection Heq as Heq.
    by destruct (digits_split _ _ _ _ Hd1 Hd2 Heq) as [-> ->].
Qed.

Lemma loading_key_inj (s t c s' t' c' : Z) :
  loading_key s t c = loading_key s' t' c' → (s, t, c) = (s', t', c').
Proof.
  unfold loading_key. intros [-> Hrest]%numeral_split.
  apply numeral_split in Hrest as [-> Hlast].
  by apply (inj pretty) in Hlast as ->.
Qed.
End loading_keys.

(** ** Further properties of the enrichment *)

Section enrichment_more.
Context {State : Type}.
Variable connectionId : string.
Variable options : IConnectionOptions.
Variable setOptions : IConnectionOptions → State → State.
Implicit Types (w : SchemaEditorState * State) (settled : Settled).

(** X14. Different paths have different keys, and a fetch touches its own
    flag only: from its start to its [await], and from the settlement to its
    end, [updatePossibleValues] leaves the possible-values flag of every
    other path and the whole relationships map as they are, and
    [updateRelationships] leaves the relationships flag of every other path
    and the whole possible-values map as they are. *)
Theorem loading_flags_are_independent
    (schema_name table_name column_name column_type : string)
    (ci ti si : Z) w :
  (∀ ci' ti' si',
     loading_key si ti ci = loading_key si' ti' ci' →
     (si, ti, ci) = (si', ti', ci'))
  ∧ (∃ w1 call resume,
       updatePossibleValues connectionId options setOptions schema_name
         table_name column_name ci ti si w = Awaiting w1 call resume
       ∧ loadingRelationshipsMap w1.1 = loadingRelationshipsMap w.1
       ∧ (∀ ci' ti' si', (si', ti', ci') ≠ (si, ti, ci) →
            loadingPossibleValuesMap w1.1 !! loading_key si' ti' ci'
            = loadingPossibleValuesMap w.1 !! loading_key si' ti' ci')
       ∧ ∀ settled w2, ∃ w3 c,
           resume settled w2 = Finished w3 c
           ∧ loadingRelationshipsMap w3.1 = loadingRelationshipsMap w2.1
           ∧ ∀ ci' ti' si', (si', ti', ci') ≠ (si, ti, ci) →
               loadingPossibleValuesMap w3.1 !! loading_key si' ti' ci'
               = loadingPossibleValuesMap w2.1 !! loading_key si' ti' ci')
  ∧ (∃ w1 call resume,
       updateRelationships connectionId options setOptions schema_name
         table_name column_name column_type ci ti si w
       = Awaiting w1 call resume
       ∧ loadingPossibleValuesMap w1.1 = loadingPossibleValuesMap w.1
       ∧ (∀ ci' ti' si', (si', ti', ci') ≠ (si, ti, ci) →
            loadingRelationshipsMap w1.1 !! loading_key si' ti' ci'
            = loadingRelationshipsMap w.1 !! loading_key si' ti' ci')
       ∧ ∀ settled w2, ∃ w3 c,
           resume settled w2 = Finished w3 c
           ∧ loadingPossibleValuesMap w3.1 = loadingPossibleValuesMap w2.1
           ∧ ∀ ci' ti' si', (si', ti', ci') ≠ (si, ti, ci) →
               loadingRelationshipsMap w3.1 !! loading_key si' ti' ci'
               = loadingRelationshipsMap w2.1 !! loading_key si' ti' ci').
Proof.
  assert (∀ ci' ti' si', (si', ti', ci') ≠ (si, ti, ci) →
            loading_key si ti ci ≠ loading_key si' ti' ci') as Hkeys.
  { intros ci' ti' si' Hne Heq. apply loading_key_inj in Heq. congruence. }
  split; [intros ci' ti' si'; apply loading_key_inj|]. split.
  - eexists _, _, _. split; [reflexivity|]. simpl. split; [done|].
    split; [intros; apply lookup_insert_ne; by apply Hkeys|].
    intros settled w2. simpl.
    settle_cases settled;
      (eexists _, _; split; [reflexivity|]; simpl; split; [done|];
       intros; apply lookup_insert_ne; by apply Hkeys).
  - eexists _, _, _. split; [reflexivity|]. simpl. split; [done|].
    split; [intros; apply lookup_insert_ne; by apply Hkeys|].
    intros settled w2. simpl.
    settle_cases settled;
      (eexists _, _; split; [reflexivity|]; simpl; split; [done|];
       intros; apply lookup_insert_ne; by apply Hkeys).
Qed.
End enrichment_more.

(** ** What a fetch writes *)

(** X15. When a fetch settles with array data, the tree that the editor then
    holds is the tree of the render in which the fetch was started, with the
    data in the field of the addressed column (if the path resolves there):
    whatever tree the editor held at the settlement is replaced, so edits of
    the tree made while the fetch was under way are gone. The name and the
    connection string of that moment stay, and the flag is set. *)
Theorem fetched_data_goes_into_the_captured_tree (connectionId : string)
    (captured : IConnectionOptions)
    (schema_name table_name column_name column_type : string)
    (ci ti si : Z) (elems : list JsValue)
    (w : SchemaEditorState * EditorState) :
  let fulfilled := Fulfilled (Some {| data := Some (JArr elems) |}) in
  let written field tree' :=
    outline tree' = outline captured
    ∧ ∀ si' ti' ci',
        column_at tree' si' ti' ci'
        = if decide ((si', ti', ci') = (si, ti, ci))
          then <[field := JArr elems]> <$> column_at captured si' ti' ci'
          else column_at captured si' ti' ci' in
  let held tree' (st2 : EditorState) : EditorState :=
    {| editFields :=
         {| edit_name := edit_name (editFields st2);
            edit_dsn := edit_dsn (editFields st2);
            edit_options := Some tree' |};
       unsavedChanges := true |} in
  (∃ w1 call resume tree',
     updatePossibleValues connectionId captured setOptions schema_name
       table_name column_name ci ti si w = Awaiting w1 call resume
     ∧ written "possible_values" tree'
     ∧ ∀ ui2 st2, ∃ ui3,
         resume fulfilled (ui2, st2)
         = Finished (ui3, held tree' st2) (Normal ()))
  ∧ (∃ w1 call resume tree',
       updateRelationships connectionId captured setOptions schema_name
         table_name column_name column_type ci ti si w
       = Awaiting w1 call resume
       ∧ written "relationship" tree'
       ∧ ∀ ui2 st2, ∃ ui3,
           resume fulfilled (ui2, st2)
           = Finished (ui3, held tree' st2) (Normal ())).
Proof.
  intros fulfilled written held. split.
  - destruct (setColumnField_column_level captured
                {| fc_value := JArr elems; fc_name := "possible_values";
                   fc_column_index := ci; fc_table_index := ti;
                   fc_schema_index := si; fc_relation_index := None |})
      as (tree' & Hset & Hout & Hcols); [simpl; lia|].
    eexists _, _, _, tree'. split; [reflexivity|]. split; [done|].
    intros ui2 st2. simpl. unfold columnFieldChangeHandler.
    rewrite Hset. by eexists.
  - destruct (setColumnField_column_level captured
                {| fc_value := JArr elems; fc_name := "relationship";
                   fc_column_index := ci; fc_table_index := ti;
                   fc_schema_index := si; fc_relation_index := None |})
      as (tree' & Hset & Hout & Hcols); [simpl; lia|].
    eexists _, _, _, tree'. split; [reflexivity|]. split; [done|].
    intros ui2 st2. simpl. unfold columnFieldChangeHandler.
    rewrite Hset. by eexists.
Qed.

(** ** Leaving, refreshing, deleting *)

Section leaving.
Context {Conversation : Type}.
Variable connection_id : Conversation → string.
Variable connectionId : string.
Variable conversationsData : option (list Conversation).
Variable connection : option IConnection.
Implicit Types (view : EditorView) (st : EditorState).

(** X16. After any edit (of the name, of the connection string, of the
    tree) Escape and the back button do not leave the page: they open the
    discard dialog and call nothing. Declining the dialog closes it and
    keeps the edit; accepting it goes back in the history. *)
Theorem back_after_edit_asks_first view st' (value : string)
    (newOptions : IConnectionOptions) :
  st' = nameInput_onChange value (session view)
  ∨ st' = dsnInput_onChange value (session view)
  ∨ st' = setOptions newOptions (session view) →
  let edited :=
    {| session := st'; showCancelAlert := showCancelAlert view;
       showDeleteAlert := showDeleteAlert view |} in
  let asking :=
    {| session := st'; showCancelAlert := true;
       showDeleteAlert := showDeleteAlert view |} in
  let closed :=
    {| session := st'; showCancelAlert := false;
       showDeleteAlert := showDeleteAlert view |} in
  handleBack edited = (asking, [])
  ∧ handleKeyPress "Escape" edited = (asking, [])
  ∧ cancelAlert_onCancel asking = (closed, [])
  ∧ cancelAlert_onSuccess asking = (closed, [history_back]).
Proof. by intros [->|[->| ->]]. Qed.

(** X17. A refreshed schema is not an edit: the refresh callback replaces the
    tree and keeps the name, the connection string and the unsaved-changes
    flag. If nothing was unsaved, the save button afterwards saves nothing
    and the back button leaves without asking. *)
Theorem refresh_is_not_an_edit view (data : IConnection) :
  let st := refreshSchema_onSuccess data (session view) in
  let refreshed :=
    {| session := st; showCancelAlert := showCancelAlert view;
       showDeleteAlert := showDeleteAlert view |} in
  edit_options (editFields st) = connection_options data
  ∧ edit_name (editFields st) = edit_name (editFields (session view))
  ∧ edit_dsn (editFields st) = edit_dsn (editFields (session view))
  ∧ unsavedChanges st = unsavedChanges (session view)
  ∧ (unsavedChanges (session view) = false →
     handleSubmit connectionId connection st = (st, [navigate "/"])
     ∧ handleBack refreshed = (refreshed, [effect (navigate "/")])).
Proof.
  intros st refreshed. do 4 (split; [done|]). intros Hclean. split.
  - unfold handleSubmit. subst st. simpl. by rewrite Hclean.
  - subst refreshed st. unfold handleBack. simpl. by rewrite Hclean.
Qed.

(** X18. The delete button deletes at once exactly when no loaded
    conversation belongs to the connection, and that includes the time
    before the conversations have loaded; otherwise it only opens the
    dialog, whose message counts the conversations of the connection. A
    delete request, from the button or from the dialog, is for the route's
    connection id and is never sent for an empty id. *)
Theorem delete_asks_when_conversations_depend view :
  let related := relatedConversations connection_id connectionId
                   conversationsData in
  let delete_now :=
    (view, if decide (connectionId = "") then []
           else [deleteConnection connectionId]) in
  (∀ c, c ∈ related ↔
        ∃ cs, conversationsData = Some cs ∧ c ∈ cs
              ∧ connection_id c = connectionId)
  ∧ (related = [] →
     deleteButton_onClick connection_id connectionId conversationsData view
     = delete_now)
  ∧ (related ≠ [] →
     deleteButton_onClick connection_id connectionId conversationsData view
     = ({| session := session view;
           showCancelAlert := showCancelAlert view;
           showDeleteAlert := true |}, []))
  ∧ (conversationsData = None → related = [])
  ∧ deleteAlert_message connection_id connectionId conversationsData
    = "This will delete " +:+ pretty (length related)
        +:+ " related conversation(s)!"
  ∧ ∀ id,
      deleteConnection id
        ∈ (deleteButton_onClick connection_id connectionId conversationsData
             view).2
          ++ (deleteAlert_onSuccess connectionId view).2 →
      id = connectionId ∧ id ≠ "".
Proof.
  intros related delete_now. subst related delete_now.
  unfold deleteButton_onClick, deleteAlert_onSuccess, handleDelete.
  split; [|split; [|split; [|split; [|split]]]].
  - intros c. unfold relatedConversations.
    destruct conversationsData as [cs|].
    + rewrite list_elem_of_filter. split.
      * intros [? ?]. by exists cs.
      * by intros (? & [= <-] & ? & ?).
    + split; [by intros ?%elem_of_nil|by intros (? & ? & _)].
  - intros ->. simpl.
    destruct (String.eqb_spec connectionId ""); by case_decide.
  - intros Hne.
    destruct (relatedConversations _ _ _); [done|]. simpl. done.
  - by intros ->.
  - done.
  - intros id. rewrite elem_of_app.
    destruct (String.eqb_spec connectionId "") as [->|Hid].
    + simpl. case_decide; simpl; intros [Hin|Hin];
        by apply elem_of_nil in Hin.
    + simpl. case_decide; simpl;
        intros [Hin|Hin]; try (by apply elem_of_nil in Hin);
        apply list_elem_of_singleton in Hin; by injection Hin as ->.
Qed.

(** X19. The arrival of the connection is idempotent and is no edit: applied
    twice it gives what it gives once, it keeps the unsaved-changes flag,
    and while the connection is undefined it changes nothing. *)
Theorem onConnection_idempotent st :
  onConnection connection (onConnection connection st)
  = onConnection connection st
  ∧ unsavedChanges (onConnection connection st) = unsavedChanges st
  ∧ onConnection None st = st.
Proof.
  split; [|split; [done|]].
  - unfold onConnection. simpl. do 2 f_equal.
    + unfold string_or. destruct (connection_name <$> connection); [|done].
      by destruct (String.eqb s "").
    + unfold string_or. destruct (connection_dsn <$> connection); [|done].
      by destruct (String.eqb s "").
    + by destruct (connection ≫= connection_options).
  - by destruct st as [[] ?].
Qed.

(** X20. A connection that arrives after the user has typed replaces what
    was typed: every non-empty field of the arriving connection overwrites
    the edited one, while the flag still says that something is unsaved. An
    empty name or connection string, or missing options, leave the edit. *)
Theorem onConnection_overwrites_edits st (c : IConnection) (value : string)
    (newOptions : IConnectionOptions) :
  (connection_name c ≠ "" →
   edit_name (editFields (onConnection (Some c) (nameInput_onChange value st)))
   = connection_name c)
  ∧ (connection_dsn c ≠ "" →
     edit_dsn (editFields (onConnection (Some c) (dsnInput_onChange value st)))
     = connection_dsn c)
  ∧ (∀ tree, connection_options c = Some tree →
       edit_options (editFields (onConnection (Some c)
                                   (setOptions newOptions st)))
       = Some tree)
  ∧ unsavedChanges (onConnection (Some c) (nameInput_onChange value st)) = true
  ∧ unsavedChanges (onConnection (Some c) (dsnInput_onChange value st)) = true
  ∧ unsavedChanges (onConnection (Some c) (setOptions newOptions st)) = true
  ∧ (connection_name c = "" →
     edit_name (editFields (onConnection (Some c)
                              (nameInput_onChange value st))) = value)
  ∧ (connection_dsn c = "" →
     edit_dsn (editFields (onConnection (Some c)
                             (dsnInput_onChange value st))) = value)
  ∧ (connection_options c = None →
     edit_options (editFields (onConnection (Some c)
                                 (setOptions newOptions st)))
     = Some newOptions).
Proof.
  unfold onConnection, string_or. simpl.
  repeat split; try done.
  - intros Hne. by destruct (String.eqb_spec (connection_name c) "").
  - intros Hne. by destruct (String.eqb_spec (connection_dsn c) "").
  - by intros tree ->.
  - by intros ->.
  - by intros ->.
  - by intros ->.
Qed.
End leaving.

(** X21. [classNames] drops empty arguments without a trace: a class list
    with an empty string in it gives the same text as the list without it,
    so a condition that is off adds no space. A single class is returned as
    it is, and no classes give the empty text. *)
Theorem classNames_ignores_empty (xs ys : list string) (class : string) :
  classNames (xs ++ "" :: ys) = classNames (xs ++ ys)
  ∧ (class ≠ "" → classNames [class] = class)
  ∧ (class ≠ "" → classNames [class; ""] = class)
  ∧ classNames [] = "".
Proof.
  unfold classNames. split; [|split; [|split]].
  - rewrite !filter_app, filter_cons_False by (by intros ?). done.
  - intros ?. by rewrite filter_cons_True, filter_nil.
  - intros ?. rewrite filter_cons_True by done.
    by rewrite filter_cons_False by (by intros ?).
  - done.
Qed.

(** ** The properties above on the sample connection *)

Lemma column_write_last_wins_witness :
  setColumnField Sample.tree (Edits.describe_id "key")
    ≫= (λ tree1, setColumnField tree1 (Edits.describe_id "primary key"))
  = setColumnField Sample.tree (Edits.describe_id "primary key").
Proof.
  apply (column_write_last_wins Sample.tree (Edits.describe_id "key")
           (Edits.describe_id "primary key")); reflexivity.
Defined.

Lemma column_writes_commute_witness :
  setColumnField Sample.tree (Edits.describe_id "key")
    ≫= (λ tree1, setColumnField tree1 Edits.disable_status)
  = setColumnField Sample.tree Edits.disable_status
      ≫= (λ tree1, setColumnField tree1 (Edits.describe_id "key")).
Proof.
  apply (column_writes_commute Sample.tree (Edits.describe_id "key")
           Edits.disable_status); [reflexivity|reflexivity|discriminate].
Defined.


Lemma table_switch_invisible_under_disabled_schema_witness :
  render_switches (setTableEnabled Sample.tree 0 1 true)
  = render_switches Sample.tree.
Proof.
  apply (table_switch_invisible_under_disabled_schema Sample.tree 0 1 true
           {| schema_name := "public"; schema_enabled := false;
              schema_tables := [Sample.users; Sample.sessions] |});
    reflexivity.
Defined.

Lemma back_after_edit_asks_first_witness :
  let edited :=
    {| session := Sample.renamed; showCancelAlert := false;
       showDeleteAlert := false |} in
  let asking :=
    {| session := Sample.renamed; showCancelAlert := true;
       showDeleteAlert := false |} in
  handleBack edited = (asking, [])
  ∧ handleKeyPress "Escape" edited = (asking, [])
  ∧ cancelAlert_onCancel asking = (edited, [])
  ∧ cancelAlert_onSuccess asking = (edited, [history_back]).
Proof.
  apply (back_after_edit_asks_first
           {| session := Sample.clean; showCancelAlert := false;
              showDeleteAlert := false |}
           Sample.renamed "lake" Sample.tree).
  left. reflexivity.
Defined.

(** ** The user list of the admin settings *)

Section admin.
Context {Connection : Type}.
Variable connection_id : Connection → string.
Variable connection_name : Connection → string.
Variable all_connections : list Connection.
Implicit Types (st : Admin.AdminState) (u : Admin.IUserInfo).

Lemma updateUser_in_range st (i : nat) (updates : Admin.UserUpdate) u :
  Admin.users st !! i = Some u →
  Admin.updateUser i updates st
  = Normal {| Admin.users :=
                <[i := Admin.merged (Some u) updates]> (Admin.users st);
              Admin.unsavedChanges := true |}.
Proof.
  intros Hu. unfold Admin.updateUser. rewrite Hu.
  rewrite decide_True; [done|]. by eapply lookup_lt_Some.
Qed.

Lemma filter_keeps_all {A} (P : A → Prop) `{∀ x, Decision (P x)}
    (l : list A) :
  Forall P l → filter P l = l.
Proof.
  induction 1 as [|x l Hx _ IH]; [done|].
  by rewrite filter_cons_True, IH.
Qed.

Lemma existingConnections_merged (o : option Admin.IUserInfo) u
    (ids : list string) :
  Admin.existingConnections
    (Admin.merged o
       {| Admin.update_config := Some (Admin.config_with u ids);
          Admin.update_rest := ∅ |})
  = ids.
Proof. done. Qed.

Lemma addConnectionToUser_connections st (i : nat) (id : string) u :
  Admin.users st !! i = Some u →
  ∃ st' u',
    Admin.addConnectionToUser i id st = Normal st'
    ∧ Admin.users st' !! i = Some u'
    ∧ Admin.existingConnections u'
      = (if decide (id ∈ Admin.existingConnections u)
         then Admin.existingConnections u
         else Admin.existingConnections u ++ [id]).
Proof.
  intros Hu. unfold Admin.addConnectionToUser. rewrite Hu. simpl.
  case_decide; [by exists st, u|].
  rewrite (updateUser_in_range _ _ _ u) by done.
  eexists _, _. split; [done|]. simpl.
  split; [apply list_lookup_insert_eq; by eapply lookup_lt_Some|done].
Qed.

(** X22. Adding a connection to a user puts the id at the end of the user's
    connections unless it is there already, in which case nothing is stored
    and nothing is marked unsaved. The other connections stay in their
    order, a list without duplicates stays without duplicates, the user's
    other properties and the other properties of its config stay, every
    other user stays, and adding the same id again changes nothing. *)
Theorem addConnectionToUser_adds_once st (i : nat) (id : string) u :
  Admin.users st !! i = Some u →
  ∃ st' u',
    Admin.addConnectionToUser i id st = Normal st'
    ∧ Admin.users st' !! i = Some u'
    ∧ Admin.existingConnections u'
      = (if decide (id ∈ Admin.existingConnections u)
         then Admin.existingConnections u
         else Admin.existingConnections u ++ [id])
    ∧ id ∈ Admin.existingConnections u'
    ∧ (NoDup (Admin.existingConnections u) →
       NoDup (Admin.existingConnections u'))
    ∧ Admin.user_rest u' = Admin.user_rest u
    ∧ from_option Admin.config_rest ∅ (Admin.user_config u')
      = from_option Admin.config_rest ∅ (Admin.user_config u)
    ∧ (∀ k, k ≠ i → Admin.users st' !! k = Admin.users st !! k)
    ∧ length (Admin.users st') = length (Admin.users st)
    ∧ (id ∈ Admin.existingConnections u → st' = st)
    ∧ Admin.addConnectionToUser i id st' = Normal st'.
Proof.
  intros Hu. unfold Admin.addConnectionToUser at 1. rewrite Hu. simpl.
  destruct (decide (id ∈ Admin.existingConnections u)) as [Hin|Hnin].
  - exists st, u. repeat split; try done.
    unfold Admin.addConnectionToUser. rewrite Hu. simpl.
    by rewrite decide_True.
  - rewrite (updateUser_in_range _ _ _ u) by done.
    eexists _, _. split; [done|]. simpl.
    assert (i < length (Admin.users st)) by (by eapply lookup_lt_Some).
    split; [by apply list_lookup_insert_eq|].
    unfold Admin.merged, Admin.existingConnections at 1. simpl.
    split; [done|]. split; [apply elem_of_app; right; by left|].
    split.
    { intros Hnd. apply NoDup_app. split; [done|].
      split; [|apply NoDup_singleton].
      intros x Hx ->%list_elem_of_singleton. done. }
    split; [by rewrite (left_id_L ∅ (∪))|]. split; [done|].
    split; [intros k ?; by apply list_lookup_insert_ne|].
    split; [apply length_insert|]. split; [done|].
    unfold Admin.addConnectionToUser. simpl.
    rewrite list_lookup_insert_eq by done. simpl.
    unfold Admin.existingConnections at 1. simpl.
    rewrite decide_True; [done|]. apply elem_of_app; right; by left.
Qed.

(** X23. Removing a connection from a user leaves the user's other
    connections in their order and none equal to the removed id; the user's
    other properties and every other user stay. The list is stored and
    marked unsaved even when the id was not among the connections. Removing
    an id right after it was added to a user that did not have it gives the
    connections the user had. *)
Theorem removeConnectionFromUser_removes_all st (i : nat) (id : string) u :
  Admin.users st !! i = Some u →
  ∃ st' u',
    Admin.removeConnectionFromUser i id st = Normal st'
    ∧ Admin.users st' !! i = Some u'
    ∧ Admin.existingConnections u'
      = (filter (λ x, x ≠ id) (Admin.existingConnections u))
    ∧ (id ∉ Admin.existingConnections u')
    ∧ Admin.user_rest u' = Admin.user_rest u
    ∧ (∀ k, k ≠ i → Admin.users st' !! k = Admin.users st !! k)
    ∧ length (Admin.users st') = length (Admin.users st)
    ∧ Admin.unsavedChanges st' = true
    ∧ (id ∉ Admin.existingConnections u →
       ∃ st1 st2 u2,
         Admin.addConnectionToUser i id st = Normal st1
         ∧ Admin.removeConnectionFromUser i id st1 = Normal st2
         ∧ Admin.users st2 !! i = Some u2
         ∧ Admin.existingConnections u2 = Admin.existingConnections u).
Proof.
  intros Hu. assert (i < length (Admin.users st)) by (by eapply lookup_lt_Some).
  unfold Admin.removeConnectionFromUser at 1. rewrite Hu. simpl.
  rewrite (updateUser_in_range _ _ _ u) by done.
  eexists _, _. split; [done|]. simpl.
  split; [by apply list_lookup_insert_eq|].
  unfold Admin.merged, Admin.existingConnections at 1. simpl.
  split; [done|]. split.
  { by intros [? _]%list_elem_of_filter. }
  split; [by rewrite (left_id_L ∅ (∪))|].
  split; [intros k ?; by apply list_lookup_insert_ne|].
  split; [apply length_insert|]. split; [done|].
  intros Hnin. unfold Admin.addConnectionToUser. rewrite Hu. simpl.
  rewrite decide_False by done.
  rewrite (updateUser_in_range _ _ _ u) by done.
  eexists _, _, _. split; [done|].
  unfold Admin.removeConnectionFromUser. simpl.
  rewrite list_lookup_insert_eq by done. simpl.
  erewrite updateUser_in_range
    by (simpl; by apply list_lookup_insert_eq).
  split; [done|]. simpl.
  split; [apply list_lookup_insert_eq; by rewrite length_insert|].
  rewrite !existingConnections_merged.
  rewrite filter_app, filter_cons_False, filter_nil, app_nil_r
    by (by intros ?).
  apply filter_keeps_all. apply Forall_forall. intros x Hx ->. done.
Qed.

(** X24. The connections offered for a user are exactly the known
    connections whose id is not among the user's connections, in the order
    of the known connections; once a connection has been added to the user
    it is no longer offered. *)
Theorem getAvailableConnections_complement st (i : nat) u :
  Admin.users st !! i = Some u →
  ∃ available,
    Admin.getAvailableConnections connection_id all_connections i st
    = Normal available
    ∧ available
      = (filter (λ c, connection_id c ∉ Admin.existingConnections u)
           all_connections)
    ∧ (∀ c, c ∈ available ↔
            c ∈ all_connections
            ∧ connection_id c ∉ Admin.existingConnections u)
    ∧ ∀ c st',
        Admin.addConnectionToUser i (connection_id c) st = Normal st' →
        ∃ available',
          Admin.getAvailableConnections connection_id all_connections i st'
          = Normal available'
          ∧ (c ∉ available')
          ∧ ∀ c', c' ∈ available' → c' ∈ available.
Proof.
  intros Hu. unfold Admin.getAvailableConnections at 1. rewrite Hu. simpl.
  eexists. split; [done|]. split; [done|]. split.
  { intros c. by rewrite list_elem_of_filter, (comm (∧)). }
  intros c st' Hadd.
  destruct (addConnectionToUser_connections st i (connection_id c) u Hu)
    as (st'' & u' & Hadd' & Hu' & Hconn).
  assert (st'' = st') as -> by congruence.
  unfold Admin.getAvailableConnections. rewrite Hu'. simpl.
  eexists. split; [done|]. split.
  - intros [Hnin _]%list_elem_of_filter. apply Hnin. rewrite Hconn.
    case_decide; [done|]. apply elem_of_app. right. by left.
  - intros c'. rewrite !list_elem_of_filter, Hconn. intros [Hnin ?].
    split; [|done]. intros Hc'. apply Hnin.
    case_decide; [done|]. apply elem_of_app. by left.
Qed.
End admin.

Section admin_more.
Context {Connection : Type}.
Variable connection_id : Connection → string.
Variable connection_name : Connection → string.
Variable all_connections : list Connection.
Implicit Types (st : Admin.AdminState) (u : Admin.IUserInfo).

(** X25. The label of a connection id is the name of the first known
    connection with that id; an id that no known connection has is shown as
    it is. *)
Theorem getConnectionName_falls_back_to_id (id : string) :
  ((∀ c, c ∈ all_connections → connection_id c ≠ id) →
   Admin.getConnectionName connection_id connection_name all_connections id
   = id)
  ∧ (∀ c, c ∈ all_connections → connection_id c = id →
       ∃ k c',
         all_connections !! k = Some c'
         ∧ connection_id c' = id
         ∧ (∀ j c'', all_connections !! j = Some c'' → j < k →
              connection_id c'' ≠ id)
         ∧ Admin.getConnectionName connection_id connection_name
             all_connections id
           = connection_name c').
Proof.
  unfold Admin.getConnectionName. split.
  - intros Hnone.
    destruct (list_find _ all_connections) as [[k c]|] eqn:Hfind; [|done].
    apply list_find_Some in Hfind as (Hk & Hid & _).
    destruct (Hnone c); [|done]. by eapply list_elem_of_lookup_2.
  - intros c Hc Hid.
    destruct (list_find _ all_connections) as [[k c']|] eqn:Hfind.
    + apply list_find_Some in Hfind as (Hk & Hid' & Hfirst).
      exists k, c'. eauto.
    + apply list_find_None in Hfind.
      rewrite Forall_forall in Hfind. by destruct (Hfind c).
Qed.

(** X26. The save button of the admin settings sends the users it holds when
    it is pressed. A success clears the unsaved flag and a failure leaves the
    state as it is; neither touches the users. The flag is cleared whatever
    happened meanwhile: a user edited while the save was under way keeps the
    edit, which was not sent, and is no longer marked unsaved. *)
Theorem handleSaveChanges_clears_flag_on_success st :
  ∃ resume,
    Admin.handleSaveChanges st
    = (st, Admin.bulkUpdateUsers (Admin.users st), resume)
    ∧ (∀ st2,
         resume true st2
         = {| Admin.users := Admin.users st2; Admin.unsavedChanges := false |}
         ∧ resume false st2 = st2)
    ∧ ∀ (i : nat) (updates : Admin.UserUpdate) st2,
        Admin.updateUser i updates st = Normal st2 →
        Admin.unsavedChanges st2 = true
        ∧ Admin.users (resume true st2) = Admin.users st2
        ∧ Admin.unsavedChanges (resume true st2) = false.
Proof.
  eexists. split; [reflexivity|]. split; [done|].
  intros i updates st2. unfold Admin.updateUser.
  repeat case_decide; [| |done]; by intros [= <-].
Qed.

(** X27. A user index past the end of the list makes adding, removing and
    listing the available connections raise a [TypeError]; nothing is
    stored. *)
Theorem user_index_out_of_range_raises st (i : nat) (id : string) :
  length (Admin.users st) ≤ i →
  Admin.addConnectionToUser i id st = Throw TypeError
  ∧ Admin.removeConnectionFromUser i id st = Throw TypeError
  ∧ Admin.getAvailableConnections connection_id all_connections i st
    = Throw TypeError.
Proof.
  intros Hlen%lookup_ge_None.
  unfold Admin.addConnectionToUser, Admin.removeConnectionFromUser,
    Admin.getAvailableConnections.
  by rewrite Hlen.
Qed.

(** X28. An update of a user replaces that user and no other: the update's
    properties win, every property that the update does not carry is kept,
    the config is replaced only if the update carries one, the list keeps
    its length, and the flag is set. *)
Theorem updateUser_merges (st : Admin.AdminState) (i : nat)
    (updates : Admin.UserUpdate) u :
  Admin.users st !! i = Some u →
  ∃ st' u',
    Admin.updateUser i updates st = Normal st'
    ∧ Admin.users st' !! i = Some u'
    ∧ (∀ key v, Admin.update_rest updates !! key = Some v →
         Admin.user_rest u' !! key = Some v)
    ∧ (∀ key, Admin.update_rest updates !! key = None →
         Admin.user_rest u' !! key = Admin.user_rest u !! key)
    ∧ Admin.user_config u'
      = from_option Some (Admin.user_config u) (Admin.update_config updates)
    ∧ (∀ k, k ≠ i → Admin.users st' !! k = Admin.users st !! k)
    ∧ length (Admin.users st') = length (Admin.users st)
    ∧ Admin.unsavedChanges st' = true.
Proof.
  intros Hu. rewrite (updateUser_in_range _ _ _ u) by done.
  assert (i < length (Admin.users st)) by (by eapply lookup_lt_Some).
  eexists _, _. split; [done|]. simpl.
  split; [by apply list_lookup_insert_eq|]. simpl. split.
  { intros key v Hv. by apply lookup_union_Some_l. }
  split.
  { intros key Hnone. by apply lookup_union_r. }
  split; [by destruct (Admin.update_config updates)|].
  split; [intros k ?; by apply list_lookup_insert_ne|].
  split; [apply length_insert|done].
Qed.
End admin_more.

Lemma addConnectionToUser_adds_once_witness :
  ∃ st' u',
    Admin.addConnectionToUser 1 "c2" AdminSample.state = Normal st'
    ∧ Admin.users st' !! 1 = Some u'
    ∧ Admin.existingConnections u'
      = (if decide ("c2" ∈ Admin.existingConnections AdminSample.bob)
         then Admin.existingConnections AdminSample.bob
         else Admin.existingConnections AdminSample.bob ++ ["c2"])
    ∧ "c2" ∈ Admin.existingConnections u'
    ∧ (NoDup (Admin.existingConnections AdminSample.bob) →
       NoDup (Admin.existingConnections u'))
    ∧ Admin.user_rest u' = Admin.user_rest AdminSample.bob
    ∧ from_option Admin.config_rest ∅ (Admin.user_config u')
      = from_option Admin.config_rest ∅ (Admin.user_config AdminSample.bob)
    ∧ (∀ k, k ≠ 1 →
         Admin.users st' !! k = Admin.users AdminSample.state !! k)
    ∧ length (Admin.users st') = length (Admin.users AdminSample.state)
    ∧ ("c2" ∈ Admin.existingConnections AdminSample.bob →
       st' = AdminSample.state)
    ∧ Admin.addConnectionToUser 1 "c2" st' = Normal st'.
Proof.
  apply (addConnectionToUser_adds_once AdminSample.state 1 "c2"
           AdminSample.bob).
  reflexivity.
Defined.

Lemma removeConnectionFromUser_removes_all_witness :
  ∃ st' u',
    Admin.removeConnectionFromUser 0 "c1" AdminSample.state = Normal st'
    ∧ Admin.users st' !! 0 = Some u'
    ∧ Admin.existingConnections u'
      = (filter (λ x, x ≠ "c1") (Admin.existingConnections AdminSample.ada))
    ∧ ("c1" ∉ Admin.existingConnections u')
    ∧ Admin.user_rest u' = Admin.user_rest AdminSample.ada
    ∧ (∀ k, k ≠ 0 →
         Admin.users st' !! k = Admin.users AdminSample.state !! k)
    ∧ length (Admin.users st') = length (Admin.users AdminSample.state)
    ∧ Admin.unsavedChanges st' = true
    ∧ ("c1" ∉ Admin.existingConnections AdminSample.ada →
       ∃ st1 st2 u2,
         Admin.addConnectionToUser 0 "c1" AdminSample.state = Normal st1
         ∧ Admin.removeConnectionFromUser 0 "c1" st1 = Normal st2
         ∧ Admin.users st2 !! 0 = Some u2
         ∧ Admin.existingConnections u2
           = Admin.existingConnections AdminSample.ada).
Proof.
  apply (removeConnectionFromUser_removes_all AdminSample.state 0 "c1"
           AdminSample.ada).
  reflexivity.
Defined.

Lemma getAvailableConnections_complement_witness :
  ∃ available,
    Admin.getAvailableConnections fst AdminSample.known 0 AdminSample.state
    = Normal available
    ∧ available
      = (filter (λ c, c.1 ∉ Admin.existingConnections AdminSample.ada)
           AdminSample.known)
    ∧ (∀ c, c ∈ available ↔
            c ∈ AdminSample.known
            ∧ c.1 ∉ Admin.existingConnections AdminSample.ada)
    ∧ ∀ c st',
        Admin.addConnectionToUser 0 c.1 AdminSample.state = Normal st' →
        ∃ available',
          Admin.getAvailableConnections fst AdminSample.known 0 st'
          = Normal available'
          ∧ (c ∉ available')
          ∧ ∀ c', c' ∈ available' → c' ∈ available.
Proof.
  apply (getAvailableConnections_complement fst AdminSample.known
           AdminSample.state 0 AdminSample.ada).
  reflexivity.
Defined.

Lemma user_index_out_of_range_raises_witness :
  Admin.addConnectionToUser 2 "c1" AdminSample.state = Throw TypeError
  ∧ Admin.removeConnectionFromUser 2 "c1" AdminSample.state = Throw TypeError
  ∧ Admin.getAvailableConnections fst AdminSample.known 2 AdminSample.state
    = Throw TypeError.
Proof.
  apply (user_index_out_of_range_raises fst AdminSample.known
           AdminSample.state 2 "c1").
  simpl. lia.
Defined.

Lemma updateUser_merges_witness :
  let updates :=
    {| Admin.update_config := None;
       Admin.update_rest := {[ "role" := JStr "ADMIN" ]} |} in
  ∃ st' u',
    Admin.updateUser 1 updates AdminSample.state = Normal st'
    ∧ Admin.users st' !! 1 = Some u'
    ∧ (∀ key v, Admin.update_rest updates !! key = Some v →
         Admin.user_rest u' !! key = Some v)
    ∧ (∀ key, Admin.update_rest updates !! key = None →
         Admin.user_rest u' !! key = Admin.user_rest AdminSample.bob !! key)
    ∧ Admin.user_config u'
      = from_option Some (Admin.user_config AdminSample.bob)
          (Admin.update_config updates)
    ∧ (∀ k, k ≠ 1 →
         Admin.users st' !! k = Admin.users AdminSample.state !! k)
    ∧ length (Admin.users st') = length (Admin.users AdminSample.state)
    ∧ Admin.unsavedChanges st' = true.
Proof.
  intros updates.
  apply (updateUser_merges AdminSample.state 1 updates AdminSample.bob).
  reflexivity.
Defined.

(** ** The suggestion list of the message input *)

Section suggestions.
Context {Char : Type}.
Variable is_word : Char → bool.
Variable space : Char.
Implicit Types (text word : list Char).

Lemma word_run_split text :
  ∃ rest,
    text = word_run is_word text ++ rest
    ∧ Forall (λ c, is_word c = true) (word_run is_word text)
    ∧ ∀ c, head rest = Some c → is_word c = false.
Proof.
  induction text as [|c text (rest & Heq & Hall & Hrest)]; simpl.
  - exists []. by repeat split.
  - destruct (is_word c) eqn:Hc.
    + exists rest. split; [simpl; by f_equal|]. split; [by constructor|done].
    + exists (c :: text). repeat split; [done|]. by intros ? [= <-].
Qed.

(** What the pattern picks at the end of a text: a run of word characters,
    as long as can be. *)
Lemma trailing_run text :
  ∃ kept,
    text = kept ++ reverse (word_run is_word (reverse text))
    ∧ Forall (λ c, is_word c = true)
        (reverse (word_run is_word (reverse text)))
    ∧ ∀ c, last kept = Some c → is_word c = false.
Proof.
  destruct (word_run_split (reverse text)) as (rest & Heq & Hall & Hrest).
  exists (reverse rest). split; [|split].
  - rewrite <-reverse_app, <-Heq. by rewrite reverse_involutive.
  - by apply Forall_reverse.
  - intros c. rewrite last_reverse. apply Hrest.
Qed.

Lemma inserted_at {A} (before inserted after : list A) (n : nat) :
  n = length before + length inserted →
  take n ((before ++ inserted) ++ after) = before ++ inserted
  ∧ drop n ((before ++ inserted) ++ after) = after.
Proof.
  intros ->. rewrite <-length_app.
  by rewrite take_app_length, drop_app_length.
Qed.

(** X29. Picking a suggestion keeps the text up to the word being typed and
    the text after the selection, and puts the suggestion and a space
    between them, with the caret right after the space. The replaced piece
    ends at the caret and is the longest run of word characters there, if
    that run has three characters or more; otherwise nothing before the
    caret is replaced. The selected text is dropped, and the suggestions are
    hidden. Without a text area nothing happens. *)
Theorem insertSuggestionAtCaret_replaces_typed_word (start end_ : nat)
    (suggestion inputValue : list Char) :
  start ≤ length inputValue →
  insertSuggestionAtCaret is_word space None suggestion inputValue = None
  ∧ ∃ kept replaced newValue newPos,
      insertSuggestionAtCaret is_word space (Some (start, end_)) suggestion
        inputValue
      = Some (newValue, false, newPos)
      ∧ take start inputValue = kept ++ replaced
      ∧ take newPos newValue = kept ++ suggestion ++ [space]
      ∧ drop newPos newValue = drop end_ inputValue
      ∧ Forall (λ c, is_word c = true) replaced
      ∧ (replaced = [] ∨ 3 ≤ length replaced)
      ∧ (replaced ≠ [] → ∀ c, last kept = Some c → is_word c = false)
      ∧ (replaced = [] →
         length (word_run is_word (reverse (take start inputValue))) < 3).
Proof.
  intros Hstart. split; [done|].
  unfold insertSuggestionAtCaret, trailing_word.
  destruct (trailing_run (take start inputValue))
    as (kept & Heq & Hall & Hlast).
  set (word := reverse (word_run is_word (reverse (take start inputValue))))
    in *.
  assert (length kept + length word = start) as Hlen.
  { rewrite <-length_app, <-Heq. by apply length_take_le. }
  destruct (decide (3 ≤ length word)) as [Hlong|Hshort].
  - exists kept, word. eexists _, _. split; [done|].
    assert (take (start - length word) inputValue = kept) as ->.
    { replace (take (start - length word) inputValue)
        with (take (start - length word) (take start inputValue))
        by (rewrite take_take; f_equal; lia).
      rewrite Heq. apply take_app_length'. lia. }
    split; [done|].
    destruct (inserted_at kept (suggestion ++ [space]) (drop end_ inputValue)
                (start - length word + length suggestion + 1))
      as [Htake Hdrop]; [rewrite length_app; simpl; lia|].
    rewrite <-!(assoc_L (++)) in Htake, Hdrop.
    split; [done|]. split; [done|].
    split; [done|]. split; [by right|]. split; [done|].
    intros Hnil. rewrite Hnil in Hlong. simpl in Hlong. lia.
  - exists (take start inputValue), []. eexists _, _. split; [done|].
    split; [by rewrite app_nil_r|].
    destruct (inserted_at (take start inputValue) (suggestion ++ [space])
                (drop end_ inputValue) (start + length suggestion + 1))
      as [Htake Hdrop];
      [rewrite length_app, length_take_le by done; simpl; lia|].
    rewrite <-!(assoc_L (++)) in Htake, Hdrop.
    split; [done|]. split; [done|].
    split; [done|]. split; [by left|]. split; [done|].
    intros _. subst word. rewrite length_reverse in Hshort. lia.
Qed.
End suggestions.

Lemma insertSuggestionAtCaret_replaces_typed_word_witness :
  let is_word := λ c : nat, bool_decide (0 < c) in
  insertSuggestionAtCaret is_word 0 None [7; 8] [1; 0; 2; 3; 4; 0; 5] = None
  ∧ ∃ kept replaced newValue newPos,
      insertSuggestionAtCaret is_word 0 (Some (5, 5)) [7; 8]
        [1; 0; 2; 3; 4; 0; 5]
      = Some (newValue, false, newPos)
      ∧ take 5 [1; 0; 2; 3; 4; 0; 5] = kept ++ replaced
      ∧ take newPos newValue = kept ++ [7; 8] ++ [0]
      ∧ drop newPos newValue = drop 5 [1; 0; 2; 3; 4; 0; 5]
      ∧ Forall (λ c, is_word c = true) replaced
      ∧ (replaced = [] ∨ 3 ≤ length replaced)
      ∧ (replaced ≠ [] → ∀ c, last kept = Some c → is_word c = false)
      ∧ (replaced = [] →
         length (word_run is_word (reverse (take 5 [1; 0; 2; 3; 4; 0; 5])))
         < 3).
Proof.
  intros is_word.
  apply (insertSuggestionAtCaret_replaces_typed_word is_word 0 5 5 [7; 8]
           [1; 0; 2; 3; 4; 0; 5]).
  simpl. lia.
Defined.
